(** * Verification of the subscription merger of ss-sub

    Shallow embedding of [src/src/services/merger.py]
    ([safe_load_yaml] and [merge_clash_configs] with its local
    [apply_prefix]) and proofs of its specification.

    Data model.  A document as [yaml.safe_load] builds it is a graph of
    Python objects: scalars are values, lists and dicts are objects in a
    store, and a YAML alias ([&a] ... [*a]) makes two places hold the same
    object.  The merger mutates dicts in place ([proxy["name"] = ...],
    [group["proxies"] = ...]), so the store and the sharing are modelled
    explicitly: [yval] is a Python value (a reference for containers),
    [obj] a container, [heap] the store, indexed by [loc].
    The modelled scalars are [None], booleans, integers and strings; mapping
    keys are strings.  A parse result is [option (heap * yval)]: [None]
    stands for [yaml.YAMLError], [Some (h, v)] for the object graph that
    [yaml.safe_load] returned, with references local to [h].
    [yaml.dump] is modelled by returning the graph of [base_config] itself:
    with [sort_keys=False] it writes the mappings in their order and writes
    shared objects with anchors, so the graph is what the text denotes. *)

From Stdlib Require Import String Ascii List Bool ZArith Arith Lia.
From Stdlib Require Import DecimalNat.
Import ListNotations.
Open Scope string_scope.

(* ------------------------------------------------------------------ *)
(** ** Python values and objects *)

Definition loc := nat.

Inductive yval : Type :=
| YNull
| YBool (b : bool)
| YInt (z : Z)
| YStr (s : string)
| YRef (l : loc).

Inductive obj : Type :=
| OSeq (items : list yval)
| OMap (kvs : list (string * yval)).

Definition heap := list obj.

(** Python exceptions the merger can raise on the modelled inputs.
    [BadRef] is a dangling reference, which a parse result of
    [yaml.safe_load] never contains. *)
Inductive exn : Type := AttributeError | TypeError | BadRef.

Inductive res (A : Type) : Type :=
| Ok (a : A)
| Err (e : exn).
Arguments Ok {A} a.
Arguments Err {A} e.

(** State and exception monad: the store is threaded, an exception aborts. *)
Definition M (A : Type) : Type := heap -> res (A * heap).

Definition ret {A} (a : A) : M A := fun h => Ok (a, h).
Definition bind {A B} (m : M A) (k : A -> M B) : M B :=
  fun h => match m h with
           | Ok (a, h') => k a h'
           | Err e => Err e
           end.
Definition raise {A} (e : exn) : M A := fun _ => Err e.
Definition get_heap : M heap := fun h => Ok (h, h).

Notation "x <- m ;; k" := (bind m (fun x => k))
  (at level 61, m at next level, right associativity).
Notation "m ;;; k" := (bind m (fun _ => k))
  (at level 61, right associativity).

Fixpoint foldM {A B} (f : A -> B -> M A) (acc : A) (l : list B) : M A :=
  match l with
  | [] => ret acc
  | x :: xs => a <- f acc x ;; foldM f a xs
  end.

Fixpoint mapM {A B} (f : A -> M B) (l : list A) : M (list B) :=
  match l with
  | [] => ret []
  | x :: xs => y <- f x ;; ys <- mapM f xs ;; ret (y :: ys)
  end.

(** Store primitives. *)
Definition alloc (o : obj) : M loc :=
  fun h => Ok (length h, (h ++ [o])%list).

Definition load (l : loc) : M obj :=
  fun h => match nth_error h l with
           | Some o => Ok (o, h)
           | None => Err BadRef
           end.

Fixpoint list_set {A} (i : nat) (x : A) (l : list A) : list A :=
  match l, i with
  | [], _ => []
  | _ :: ys, 0 => x :: ys
  | y :: ys, S j => y :: list_set j x ys
  end.

Definition store (l : loc) (o : obj) : M unit :=
  fun h => match nth_error h l with
           | Some _ => Ok (tt, list_set l o h)
           | None => Err BadRef
           end.

(* ------------------------------------------------------------------ *)
(** ** Python builtins on the modelled values *)

(** dict lookup and [d[k] = v] on an association list with unique keys:
    assignment to a present key keeps its position, a new key goes last. *)
Fixpoint assoc (k : string) (kvs : list (string * yval)) : option yval :=
  match kvs with
  | [] => None
  | (k', v) :: r => if String.eqb k k' then Some v else assoc k r
  end.

Fixpoint dict_set (k : string) (v : yval) (kvs : list (string * yval))
  : list (string * yval) :=
  match kvs with
  | [] => [(k, v)]
  | (k', v') :: r =>
      if String.eqb k k' then (k', v) :: r else (k', v') :: dict_set k v r
  end.

(** [bool(v)] *)
Definition py_truthy (h : heap) (v : yval) : bool :=
  match v with
  | YNull => false
  | YBool b => b
  | YInt z => negb (Z.eqb z 0)
  | YStr s => negb (String.eqb s "")
  | YRef l =>
      match nth_error h l with
      | Some (OSeq []) | Some (OMap []) => false
      | _ => true
      end
  end.

(** [v.get(k)]: only dicts have [get]. *)
Definition py_get (v : yval) (k : string) : M (option yval) :=
  match v with
  | YRef l =>
      o <- load l ;;
      match o with
      | OMap kvs => ret (assoc k kvs)
      | OSeq _ => raise AttributeError
      end
  | _ => raise AttributeError
  end.

(** [v[k] = x] for a string key: only dicts accept it. *)
Definition py_setitem (v : yval) (k : string) (x : yval) : M unit :=
  match v with
  | YRef l =>
      o <- load l ;;
      match o with
      | OMap kvs => store l (OMap (dict_set k x kvs))
      | OSeq _ => raise TypeError
      end
  | _ => raise TypeError
  end.

(** [for x in v]: a list yields its items, a dict its keys, a string its
    characters; other scalars are not iterable. *)
Definition py_iter (v : yval) : M (list yval) :=
  match v with
  | YRef l =>
      o <- load l ;;
      match o with
      | OSeq xs => ret xs
      | OMap kvs => ret (map (fun kv => YStr (fst kv)) kvs)
      end
  | YStr s => ret (map (fun c => YStr (String c EmptyString)) (list_ascii_of_string s))
  | _ => raise TypeError
  end.

(** [x or []] followed by iteration: a falsy value iterates as empty. *)
Definition py_iter_or_empty (v : option yval) : M (list yval) :=
  match v with
  | None => ret []
  | Some x => h <- get_heap ;; if py_truthy h x then py_iter x else ret []
  end.

(** Whitespace of [str.strip()] within ASCII. *)
Definition is_space (c : ascii) : bool :=
  let n := nat_of_ascii c in
  ((9 <=? n) && (n <=? 13) || (28 <=? n) && (n <=? 32))%nat.

Fixpoint lstrip (s : string) : string :=
  match s with
  | EmptyString => EmptyString
  | String c r => if is_space c then lstrip r else s
  end.

Definition rev_string (s : string) : string :=
  string_of_list_ascii (rev (list_ascii_of_string s)).

Definition strip (s : string) : string := rev_string (lstrip (rev_string (lstrip s))).

(** [str.upper()] within ASCII. *)
Definition upper_char (c : ascii) : ascii :=
  let n := nat_of_ascii c in
  if ((97 <=? n) && (n <=? 122))%nat then ascii_of_nat (n - 32)%nat else c.

Fixpoint upper (s : string) : string :=
  match s with
  | EmptyString => EmptyString
  | String c r => String (upper_char c) (upper r)
  end.

(** [s.split(',')]: every comma separates, empty fields are kept. *)
Fixpoint split_comma (s : string) : list string :=
  match s with
  | EmptyString => [EmptyString]
  | String c r =>
      let rest := split_comma r in
      if Ascii.eqb c ","%char then EmptyString :: rest
      else match rest with
           | [] => [String c EmptyString]
           | x :: xs => String c x :: xs
           end
  end.

(** [','.join(parts)] *)
Definition join_comma (parts : list string) : string := String.concat "," parts.

(** [str(n)] for a natural number, in decimal. *)
Fixpoint string_of_uint (d : Decimal.uint) : string :=
  match d with
  | Decimal.Nil => EmptyString
  | Decimal.D0 r => String "0" (string_of_uint r)
  | Decimal.D1 r => String "1" (string_of_uint r)
  | Decimal.D2 r => String "2" (string_of_uint r)
  | Decimal.D3 r => String "3" (string_of_uint r)
  | Decimal.D4 r => String "4" (string_of_uint r)
  | Decimal.D5 r => String "5" (string_of_uint r)
  | Decimal.D6 r => String "6" (string_of_uint r)
  | Decimal.D7 r => String "7" (string_of_uint r)
  | Decimal.D8 r => String "8" (string_of_uint r)
  | Decimal.D9 r => String "9" (string_of_uint r)
  end.

Definition str_nat (n : nat) : string := string_of_uint (Nat.to_uint n).

Definition mem (s : string) (l : list string) : bool := existsb (String.eqb s) l.

(* ------------------------------------------------------------------ *)
(** ** [safe_load_yaml] *)

(** Parse results and their placement in the store: every call of
    [yaml.safe_load] builds new objects, so a parse result is appended to
    the store with its references shifted past the objects already there. *)
Definition parsed := option (heap * yval).

Definition shift_val (off : nat) (v : yval) : yval :=
  match v with
  | YRef l => YRef (off + l)
  | _ => v
  end.

Definition shift_obj (off : nat) (o : obj) : obj :=
  match o with
  | OSeq xs => OSeq (map (shift_val off) xs)
  | OMap kvs => OMap (map (fun kv => (fst kv, shift_val off (snd kv))) kvs)
  end.

Definition load_doc (d : heap * yval) : M yval :=
  fun h => Ok (shift_val (length h) (snd d),
               (h ++ map (shift_obj (length h)) (fst d))%list).

(** [yaml.safe_load(content) or {}], and [{}] on [yaml.YAMLError]. *)
Definition safe_load_yaml (content : parsed) : M yval :=
  match content with
  | None => l <- alloc (OMap []) ;; ret (YRef l)
  | Some d =>
      v <- load_doc d ;;
      h <- get_heap ;;
      if py_truthy h v then ret v
      else l <- alloc (OMap []) ;; ret (YRef l)
  end.

(* ------------------------------------------------------------------ *)
(** ** [merge_clash_configs] *)

(** The local helper [apply_prefix]. *)
Definition apply_prefix (name prefix : string) : string :=
  if mem name ["DIRECT"; "REJECT"; "GLOBAL"; "Final"]
     || String.prefix "Expire:" name || String.prefix "Traffic:" name
  then name
  else prefix ++ "_" ++ name.

(** [apply_prefix] called on a Python value: [name.startswith] raises on
    anything but a string. *)
Definition py_apply_prefix (v : yval) (prefix : string) : M string :=
  match v with
  | YStr s => ret (apply_prefix s prefix)
  | _ => raise AttributeError
  end.

(** The local variables the loop threads. *)
Record mstate : Type := MState {
  all_proxies : list yval;
  all_groups : list yval;
  all_rules : list string;
  existing_proxy_names : list string;
  existing_group_names : list string
}.

(** [while prefixed_name in existing_proxy_names:
       prefixed_name = f"{original_prefixed}_{counter}"; counter += 1]
    run with [fuel] rounds; [length existing + 1] rounds always suffice
    ([dedup_name_fresh] below). *)
Fixpoint dedup_loop (existing : list string) (original : string)
    (counter fuel : nat) (prefixed_name : string) : string :=
  if mem prefixed_name existing then
    match fuel with
    | 0 => prefixed_name
    | S f => dedup_loop existing original (S counter) f
               (original ++ "_" ++ str_nat counter)
    end
  else prefixed_name.

Definition dedup_name (existing : list string) (prefixed_name : string) : string :=
  dedup_loop existing prefixed_name 1 (S (length existing)) prefixed_name.

(** 1. one proxy of the loop [for proxy in proxies] *)
Definition merge_proxy (prefix : string) (st : mstate) (proxy : yval) : M mstate :=
  name <- py_get proxy "name" ;;
  h <- get_heap ;;
  let name := match name with Some n => n | None => YNull end in
  if negb (py_truthy h name) then ret st else
  prefixed_name <- py_apply_prefix name prefix ;;
  let final := dedup_name (existing_proxy_names st) prefixed_name in
  py_setitem proxy "name" (YStr final) ;;;
  ret {| all_proxies := (all_proxies st ++ [proxy])%list;
         all_groups := all_groups st;
         all_rules := all_rules st;
         existing_proxy_names := final :: existing_proxy_names st;
         existing_group_names := existing_group_names st |}.

Definition merge_proxies (prefix : string) (config : yval) (st : mstate) : M mstate :=
  proxies <- py_get config "proxies" ;;
  xs <- py_iter_or_empty proxies ;;
  foldM (merge_proxy prefix) st xs.

(** 2. one group of the loop [for group in groups] *)
Definition merge_group (prefix : string) (st : mstate) (group : yval) : M mstate :=
  original_name <- py_get group "name" ;;
  h <- get_heap ;;
  let original_name := match original_name with Some n => n | None => YNull end in
  if negb (py_truthy h original_name) then ret st else
  prefixed_group_name <- py_apply_prefix original_name prefix ;;
  members <- py_get group "proxies" ;;
  members <- py_iter_or_empty members ;;
  new_members <- mapM (fun m => py_apply_prefix m prefix) members ;;
  py_setitem group "name" (YStr prefixed_group_name) ;;;
  l <- alloc (OSeq (map YStr new_members)) ;;
  py_setitem group "proxies" (YRef l) ;;;
  if mem prefixed_group_name (existing_group_names st) then ret st
  else ret {| all_proxies := all_proxies st;
              all_groups := (all_groups st ++ [group])%list;
              all_rules := all_rules st;
              existing_proxy_names := existing_proxy_names st;
              existing_group_names := prefixed_group_name :: existing_group_names st |}.

Definition merge_groups (prefix : string) (config : yval) (st : mstate) : M mstate :=
  groups <- py_get config "proxy-groups" ;;
  xs <- py_iter_or_empty groups ;;
  foldM (merge_group prefix) st xs.

(** 3. the body of [for r in rules] on a string [r]: the line appended. *)
Definition rewrite_rule (prefix : string) (r : string) : string :=
  let parts := split_comma r in
  let n := length parts in
  if (3 <=? n)%nat then
    if String.eqb (strip (nth (n - 1) parts "")) "no-resolve" then
      join_comma (list_set (n - 2) (apply_prefix (nth (n - 2) parts "") prefix) parts)
    else
      join_comma (list_set (n - 1) (apply_prefix (nth (n - 1) parts "") prefix) parts)
  else r.

Definition merge_rule (prefix : string) (st : mstate) (r : yval) : M mstate :=
  match r with
  | YStr s =>
      ret {| all_proxies := all_proxies st;
             all_groups := all_groups st;
             all_rules := (all_rules st ++ [rewrite_rule prefix s])%list;
             existing_proxy_names := existing_proxy_names st;
             existing_group_names := existing_group_names st |}
  | _ => raise AttributeError   (* [r.split] *)
  end.

Definition merge_rules (prefix : string) (config : yval) (st : mstate) : M mstate :=
  rules <- py_get config "rules" ;;
  xs <- py_iter_or_empty rules ;;
  foldM (merge_rule prefix) st xs.

(** One iteration of [for content, prefix in configs]. *)
Definition merge_config (st : mstate) (cfg : parsed * string) : M mstate :=
  config <- safe_load_yaml (fst cfg) ;;
  st <- merge_proxies (snd cfg) config st ;;
  st <- merge_groups (snd cfg) config st ;;
  merge_rules (snd cfg) config st.

(** [if custom_rules: for r in custom_rules: if r.strip(): append(r.strip())] *)
Definition custom_pre (custom_rules : option (list string)) : list string :=
  match custom_rules with
  | None => []
  | Some rs => map strip (filter (fun r => negb (String.eqb (strip r) "")) rs)
  end.

(** The key of the rule dedup loop. *)
Definition rule_key (rule : string) (parts : list string) : string :=
  match parts with
  | [] => rule
  | p0 :: rest =>
      let rule_type := upper (strip p0) in
      if String.eqb rule_type "MATCH" then "MATCH"
      else match rest with
           | p1 :: _ => rule_type ++ "," ++ strip p1
           | [] => rule
           end
  end.

(** [for rule in all_rules: ... if key not in seen_keys: keep] *)
Fixpoint dedup_rules (seen_keys : list string) (rules : list string) : list string :=
  match rules with
  | [] => []
  | rule :: rest =>
      let parts := split_comma rule in
      match parts with
      | [] => dedup_rules seen_keys rest
      | _ =>
          let key := rule_key rule parts in
          if mem key seen_keys then dedup_rules seen_keys rest
          else rule :: dedup_rules (key :: seen_keys) rest
      end
  end.

Definition empty_state (custom_rules : option (list string)) : mstate :=
  {| all_proxies := []; all_groups := []; all_rules := custom_pre custom_rules;
     existing_proxy_names := []; existing_group_names := [] |}.

Definition merge_body (configs : list (parsed * string))
    (custom_rules : option (list string)) (base_content : parsed) : M yval :=
  base_config <- safe_load_yaml base_content ;;
  st <- foldM merge_config (empty_state custom_rules) configs ;;
  let unique_rules := dedup_rules [] (all_rules st) in
  lp <- alloc (OSeq (all_proxies st)) ;;
  py_setitem base_config "proxies" (YRef lp) ;;;
  lg <- alloc (OSeq (all_groups st)) ;;
  py_setitem base_config "proxy-groups" (YRef lg) ;;;
  lr <- alloc (OSeq (map YStr unique_rules)) ;;
  py_setitem base_config "rules" (YRef lr) ;;;
  ret base_config.

(** The merged document as the graph [yaml.dump] writes out. *)
Definition merge_clash_configs (configs : list (parsed * string))
    (custom_rules : option (list string)) : res (yval * heap) :=
  match configs with
  | [] => (l <- alloc (OMap []) ;; ret (YRef l)) []
  | (base_content, _) :: _ => merge_body configs custom_rules base_content []
  end.

(* ------------------------------------------------------------------ *)
(** ** Reading the merged document *)

Definition deref (h : heap) (v : yval) : option obj :=
  match v with
  | YRef l => nth_error h l
  | _ => None
  end.

(** [doc[key]] of a mapping *)
Definition doc_field (h : heap) (v : yval) (key : string) : option yval :=
  match deref h v with
  | Some (OMap kvs) => assoc key kvs
  | _ => None
  end.

Definition doc_seq (h : heap) (v : yval) : option (list yval) :=
  match deref h v with
  | Some (OSeq xs) => Some xs
  | _ => None
  end.

Definition as_str (v : yval) : option string :=
  match v with
  | YStr s => Some s
  | _ => None
  end.

Fixpoint all_some {A} (l : list (option A)) : option (list A) :=
  match l with
  | [] => Some []
  | None :: _ => None
  | Some x :: r => match all_some r with Some xs => Some (x :: xs) | None => None end
  end.

(** [[e["name"] for e in doc[key]]] *)
Definition doc_names (h : heap) (v : yval) (key : string) : option (list string) :=
  match doc_field h v key with
  | Some c =>
      match doc_seq h c with
      | Some xs =>
          all_some (map (fun e => match doc_field h e "name" with
                                  | Some n => as_str n
                                  | None => None
                                  end) xs)
      | None => None
      end
  | None => None
  end.

(** [[g["proxies"] for g in doc["proxy-groups"]]] *)
Definition doc_group_members (h : heap) (v : yval) : option (list (list string)) :=
  match doc_field h v "proxy-groups" with
  | Some c =>
      match doc_seq h c with
      | Some gs =>
          all_some (map (fun g => match doc_field h g "proxies" with
                                  | Some m => match doc_seq h m with
                                              | Some ms => all_some (map as_str ms)
                                              | None => None
                                              end
                                  | None => None
                                  end) gs)
      | None => None
      end
  | None => None
  end.

(** [doc["rules"]] *)
Definition doc_rules (h : heap) (v : yval) : option (list string) :=
  match doc_field h v "rules" with
  | Some c => match doc_seq h c with
              | Some xs => all_some (map as_str xs)
              | None => None
              end
  | None => None
  end.

(* ------------------------------------------------------------------ *)
(** ** Definitions following the spec's words *)

(** The reserved tokens of the Name Prefixer, as the spec lists them. *)
Definition reserved_spec (name : string) : Prop :=
  name = "DIRECT" \/ name = "REJECT" \/ name = "GLOBAL" \/ name = "Final"
  \/ (exists r, name = "Expire:" ++ r) \/ (exists r, name = "Traffic:" ++ r).

(** The dedup key of a rule line as the spec words it; a line with one
    field that is not [MATCH] has no [TYPE,VALUE] key. *)
Definition spec_rule_key (rule : string) : option string :=
  match split_comma rule with
  | [] => None
  | p0 :: rest =>
      if String.eqb (upper (strip p0)) "MATCH" then Some "MATCH"
      else match rest with
           | p1 :: _ => Some (upper (strip p0) ++ "," ++ strip p1)
           | [] => None
           end
  end.

Definition code_key (rule : string) : string := rule_key rule (split_comma rule).

(** First-seen-wins filtering: a line is kept iff no line before it in
    the list has the same key. *)
Fixpoint keep_first_from (key : string -> string) (before : list string)
    (l : list string) : list string :=
  match l with
  | [] => []
  | x :: xs =>
      if existsb (fun y => String.eqb (key y) (key x)) before
      then keep_first_from key (before ++ [x])%list xs
      else x :: keep_first_from key (before ++ [x])%list xs
  end.

Definition keep_first (key : string -> string) (l : list string) : list string :=
  keep_first_from key [] l.

Definition opt_list {A} (o : option A) : list A :=
  match o with Some x => [x] | None => [] end.

(* ------------------------------------------------------------------ *)
(** ** Concrete documents, readers and invariants used by the proofs *)

(** The text [hello]: [yaml.safe_load] returns the string ['hello']. *)
Definition doc_scalar : heap * yval := ([], YStr "hello").

(** The text
<<
proxies:
  - &p {name: A, type: ss}
  - *p
>>
    whose proxy list holds the same dict twice. *)
Definition doc_alias_proxy : heap * yval :=
  ([OMap [("proxies", YRef 1)];
    OSeq [YRef 2; YRef 2];
    OMap [("name", YStr "A"); ("type", YStr "ss")]], YRef 0).

(** The text
<<
proxies:
  - {name: A}
proxy-groups:
  - &g {name: G, proxies: [A]}
  - *g
>>
    whose group list holds the same dict twice; its only member [A] is a
    proxy of the same document. *)
Definition doc_alias_group : heap * yval :=
  ([OMap [("proxies", YRef 1); ("proxy-groups", YRef 3)];
    OSeq [YRef 2];
    OMap [("name", YStr "A")];
    OSeq [YRef 4; YRef 4];
    OMap [("name", YStr "G"); ("proxies", YRef 5)];
    OSeq [YStr "A"]], YRef 0).

Definition merged_names (configs : list (parsed * string)) (key : string)
  : option (list string) :=
  match merge_clash_configs configs None with
  | Ok (v, h) => doc_names h v key
  | Err _ => None
  end.

Definition merged_members (configs : list (parsed * string))
  : option (list (list string)) :=
  match merge_clash_configs configs None with
  | Ok (v, h) => doc_group_members h v
  | Err _ => None
  end.

Definition rewritten_under (p : string) (sub : list string) : Prop :=
  Forall (fun r => exists s, r = rewrite_rule p s) sub.

Definition from_sources (configs : list (parsed * string)) (sub : list string) : Prop :=
  Forall (fun r => exists lbl s, In lbl (map snd configs) /\ r = rewrite_rule lbl s) sub.

Definition val_above (n0 : nat) (v : yval) : Prop :=
  match v with
  | YRef l => (n0 <= l)%nat
  | _ => True
  end.

Definition obj_above (n0 : nat) (o : obj) : Prop :=
  match o with
  | OSeq xs => Forall (val_above n0) xs
  | OMap kvs => Forall (fun kv => val_above n0 (snd kv)) kvs
  end.

Definition Inv (n0 : nat) (h0 : heap) (h : heap) : Prop :=
  (n0 <= length h)%nat /\
  (forall l, (l < n0)%nat -> nth_error h l = nth_error h0 l) /\
  (forall l o, (n0 <= l)%nat -> nth_error h l = Some o -> obj_above n0 o).

Definition collection_keys : list string := ["proxies"; "proxy-groups"; "rules"].

Definition other_setting (kv : string * yval) : bool := negb (mem (fst kv) collection_keys).

Definition candidate (original : string) (i : nat) : string :=
  original ++ "_" ++ str_nat i.

(** The text
<<
port: 7890
proxies: [{name: A}]
proxy-groups: [{name: G, proxies: [A, DIRECT]}]
rules: ['DOMAIN,x.com,A', 'IP-CIDR,10.0.0.0/8,A,no-resolve', 'MATCH,G']
>> *)
Definition doc_plain : heap * yval :=
  ([OMap [("port", YInt 7890); ("proxies", YRef 1); ("proxy-groups", YRef 3);
          ("rules", YRef 6)];
    OSeq [YRef 2];
    OMap [("name", YStr "A")];
    OSeq [YRef 4];
    OMap [("name", YStr "G"); ("proxies", YRef 5)];
    OSeq [YStr "A"; YStr "DIRECT"];
    OSeq [YStr "DOMAIN,x.com,A"; YStr "IP-CIDR,10.0.0.0/8,A,no-resolve";
          YStr "MATCH,G"]], YRef 0).

Definition plain_configs : list (parsed * string) :=
  [(Some doc_plain, "sub1"); (Some doc_plain, "sub2")].

Definition plain_custom : option (list string) := Some [" DOMAIN,x.com,DIRECT "; "  "].

(* ------------------------------------------------------------------ *)
(** ** [src/src/services/storage.py] *)

(** [str.splitlines()] within ASCII: a line ends at \n, \r, \r\n, \x0b,
    \x0c, \x1c, \x1d or \x1e, and a break at the very end of the text
    opens no further line.  [cur] is the line read so far. *)
Definition is_line_break (c : ascii) : bool :=
  let n := nat_of_ascii c in
  ((10 <=? n) && (n <=? 13) || (28 <=? n) && (n <=? 30))%nat.

Fixpoint splitlines_from (cur : string) (s : string) : list string :=
  match s with
  | EmptyString => if String.eqb cur "" then [] else [cur]
  | String c rest =>
      if Ascii.eqb c "013"%char then
        match rest with
        | String c' rest' =>
            if Ascii.eqb c' "010"%char then cur :: splitlines_from "" rest'
            else cur :: splitlines_from "" rest
        | EmptyString => cur :: splitlines_from "" rest
        end
      else if is_line_break c then cur :: splitlines_from "" rest
      else splitlines_from (cur ++ String c EmptyString) rest
  end.

Definition splitlines (s : string) : list string := splitlines_from "" s.

(** [[r.strip() for r in text.splitlines() if r.strip()]] *)
Definition stripped_lines (text : string) : list string :=
  map strip (filter (fun r => negb (String.eqb (strip r) "")) (splitlines text)).

(** ["\n".join(xs)] *)
Definition newline : string := String "010"%char EmptyString.
Definition join_lines (xs : list string) : string := String.concat newline xs.

(** The local helper [get_key] of [save_custom_rules]. *)
Definition get_key (rule : string) : string :=
  let parts := split_comma rule in
  match parts with
  | [] => rule
  | p0 :: rest =>
      let rule_type := upper (strip p0) in
      if String.eqb rule_type "MATCH" then "MATCH"
      else match rest with
           | p1 :: _ => rule_type ++ "," ++ strip p1
           | [] => rule
           end
  end.

(** A dict with string keys, as an association list in insertion order. *)
Fixpoint dict_lookup {V} (k : string) (d : list (string * V)) : option V :=
  match d with
  | [] => None
  | (k', v) :: r => if String.eqb k k' then Some v else dict_lookup k r
  end.

Fixpoint dict_store {V} (k : string) (v : V) (d : list (string * V))
  : list (string * V) :=
  match d with
  | [] => [(k, v)]
  | (k', v') :: r =>
      if String.eqb k k' then (k', v) :: r else (k', v') :: dict_store k v r
  end.

(** One round of either loop of [save_custom_rules] on
    [(rule_map, ordered_keys)]:
    [key = get_key(rule); if key not in rule_map: ordered_keys.append(key);
     rule_map[key] = rule]. *)
Definition upsert_step (acc : list (string * string) * list string) (rule : string)
  : list (string * string) * list string :=
  let '(rule_map, ordered_keys) := acc in
  let key := get_key rule in
  let ordered_keys :=
    match dict_lookup key rule_map with
    | None => (ordered_keys ++ [key])%list
    | Some _ => ordered_keys
    end in
  (dict_store key rule rule_map, ordered_keys).

(** [[rule_map[key] for key in ordered_keys]]; [None] is a [KeyError]. *)
Fixpoint lookup_all (rule_map : list (string * string)) (keys : list string)
  : option (list string) :=
  match keys with
  | [] => Some []
  | k :: ks =>
      match dict_lookup k rule_map, lookup_all rule_map ks with
      | Some r, Some rs => Some (r :: rs)
      | _, _ => None
      end
  end.

(** [Subscription] of [src/src/models/subscription.py]. *)
Record subscription : Type := Subscription {
  sub_url : string;
  sub_name : option string;
  sub_id : string
}.

(** The three files of [StorageService] under [data/].  [subscriptions.json]
    is created empty by [__init__] and holds the list [_save_subscriptions]
    wrote ([sub.dict()] of each subscription, read back field by field).
    [merged.yaml] holds what [save_merged_config] wrote, the output of
    [yaml.dump] in the model of [merge_clash_configs]; [None] is a missing
    file.  [custom_rules.txt] holds a text, [None] is a missing file. *)
Record storage : Type := Storage {
  subscriptions : list subscription;
  merged_file : option (yval * heap);
  custom_rules_file : option string
}.

Definition get_all_subscriptions (st : storage) : list subscription :=
  subscriptions st.

Definition save_subscriptions (subs : list subscription) (st : storage) : storage :=
  {| subscriptions := subs; merged_file := merged_file st;
     custom_rules_file := custom_rules_file st |}.

Definition add_subscription (sub : subscription) (st : storage) : storage :=
  save_subscriptions (get_all_subscriptions st ++ [sub])%list st.

Definition remove_subscription (target_id : string) (st : storage) : storage :=
  save_subscriptions
    (filter (fun s => negb (String.eqb (sub_id s) target_id)) (get_all_subscriptions st)) st.

Definition save_merged_config (content : yval * heap) (st : storage) : storage :=
  {| subscriptions := subscriptions st; merged_file := Some content;
     custom_rules_file := custom_rules_file st |}.

(** [None] is the [""] returned for a missing file. *)
Definition get_merged_config (st : storage) : option (yval * heap) := merged_file st.

Definition get_custom_rules (st : storage) : string :=
  match custom_rules_file st with
  | Some text => text
  | None => ""
  end.

Definition write_custom_rules (text : string) (st : storage) : storage :=
  {| subscriptions := subscriptions st; merged_file := merged_file st;
     custom_rules_file := Some text |}.

(** [save_custom_rules]; [None] is a [KeyError] in the final lookup. *)
Definition save_custom_rules (new_rules_text : string) (st : storage) : option storage :=
  let existing_rules := stripped_lines (get_custom_rules st) in
  let acc := fold_left upsert_step existing_rules ([], []) in
  let new_rules := stripped_lines new_rules_text in
  let '(rule_map, ordered_keys) := fold_left upsert_step new_rules acc in
  match lookup_all rule_map ordered_keys with
  | Some final_rules => Some (write_custom_rules (join_lines final_rules) st)
  | None => None
  end.

(* ------------------------------------------------------------------ *)
(** ** [src/src/routers/subscription.py] *)

(** What [fetch_subscription(url)] gave to [asyncio.gather(...,
    return_exceptions=True)]: the response text, represented by what
    [yaml.safe_load] makes of it, or an exception. *)
Inductive fetch_result : Type :=
| Fetched (content : parsed)
| FetchFailed.

(** Exceptions leaving a route body: an [HTTPException] with its status
    code (its detail text is not modelled) or an exception of the merger. *)
Inductive pyexc : Type :=
| HTTPException (status_code : nat)
| MergeError (e : exn).

Inductive outcome (A : Type) : Type :=
| Done (a : A)
| Raised (e : pyexc).
Arguments Done {A} a.
Arguments Raised {A} e.

(** [for i, result in enumerate(results): if isinstance(result, Exception):
    continue; valid_configs.append((result, name_of(i)))] *)
Fixpoint collect_valid (name_of : nat -> string) (i : nat) (results : list fetch_result)
  : list (parsed * string) :=
  match results with
  | [] => []
  | FetchFailed :: rest => collect_valid name_of (S i) rest
  | Fetched c :: rest => (c, name_of i) :: collect_valid name_of (S i) rest
  end.

(** [s.name or f"sub{i}"] *)
Definition sub_label (i : nat) (s : subscription) : string :=
  match sub_name s with
  | Some n => if String.eqb n "" then "sub" ++ str_nat i else n
  | None => "sub" ++ str_nat i
  end.

(** [[s.name or f"sub{i}" for i, s in enumerate(subs, i)]] *)
Fixpoint sub_names (i : nat) (subs : list subscription) : list string :=
  match subs with
  | [] => []
  | s :: rest => sub_label i s :: sub_names (S i) rest
  end.

(** The [try] block of [refresh_subscriptions].  [names[i]] is [nth]: the
    results and the names both have one entry per subscription. *)
Definition refresh_try (fetch : string -> fetch_result) (subs : list subscription)
    (st : storage) : outcome string * storage :=
  let urls := map sub_url subs in
  let names := sub_names 1 subs in
  let results := map fetch urls in
  let valid_configs := collect_valid (fun i => nth i names "") 0 results in
  match valid_configs with
  | [] => (Raised (HTTPException 400), st)
  | _ =>
      let custom_rules := stripped_lines (get_custom_rules st) in
      match merge_clash_configs valid_configs (Some custom_rules) with
      | Err e => (Raised (MergeError e), st)
      | Ok merged_yaml => (Done "Refresh successful", save_merged_config merged_yaml st)
      end
  end.

(** [POST /subscription/refresh]: [except Exception as e: raise
    HTTPException(status_code=500, detail=str(e))]. *)
Definition refresh_subscriptions (fetch : string -> fetch_result) (st : storage)
  : outcome string * storage :=
  let subs := get_all_subscriptions st in
  match subs with
  | [] => (Raised (HTTPException 400), st)
  | _ =>
      match refresh_try fetch subs st with
      | (Raised _, st') => (Raised (HTTPException 500), st')
      | r => r
      end
  end.

(** The [try] block of [merge_subscriptions_direct]. *)
Definition merge_direct_try (fetch : string -> fetch_result) (urls : list string)
    (st : storage) : outcome (yval * heap) :=
  let results := map fetch urls in
  let valid_configs := collect_valid (fun i => "sub" ++ str_nat (i + 1)) 0 results in
  match valid_configs with
  | [] => Raised (HTTPException 400)
  | _ =>
      let custom_rules := stripped_lines (get_custom_rules st) in
      match merge_clash_configs valid_configs (Some custom_rules) with
      | Err e => Raised (MergeError e)
      | Ok merged_yaml => Done merged_yaml
      end
  end.

(** [GET /subscription/merge] *)
Definition merge_subscriptions_direct (fetch : string -> fetch_result) (urls : list string)
    (st : storage) : outcome (yval * heap) :=
  match merge_direct_try fetch urls st with
  | Raised _ => Raised (HTTPException 500)
  | r => r
  end.

(** [GET /subscription/result]: [if not content: raise
    HTTPException(status_code=404)]. *)
Definition get_merged_result (st : storage) : outcome (yval * heap) :=
  match get_merged_config st with
  | None => Raised (HTTPException 404)
  | Some content => Done content
  end.

(** [POST /rules/update] of [src/src/routers/rules.py]: [except Exception
    as e: raise HTTPException(status_code=500)]; the [KeyError] of
    [save_custom_rules] is the only exception modelled. *)
Definition update_custom_rules (rules : string) (st : storage) : outcome string * storage :=
  match save_custom_rules rules st with
  | Some st' => (Done "Custom rules updated successfully", st')
  | None => (Raised (HTTPException 500), st)
  end.

(* ------------------------------------------------------------------ *)
(** ** Reading the stored custom rules *)

Definition last_opt (l : list string) : option string :=
  match rev l with
  | [] => None
  | x :: _ => Some x
  end.

(** The last rule of [l] with key [k]. *)
Definition last_with (k : string) (l : list string) : option string :=
  last_opt (filter (fun r => String.eqb (get_key r) k) l).

(** The keys in the order of their first occurrence. *)
Fixpoint first_keys (seen : list string) (l : list string) : list string :=
  match l with
  | [] => []
  | k :: rest => if mem k seen then first_keys seen rest else k :: first_keys (k :: seen) rest
  end.

(** One rule per key, keys in first-occurrence order, each the last rule
    with its key. *)
Definition upsert_spec (rules : list string) : list string :=
  flat_map (fun k => opt_list (last_with k rules)) (first_keys [] (map get_key rules)).

(** [lstrip] and its mirror image on the characters of a string. *)
Fixpoint lstrip_l (l : list ascii) : list ascii :=
  match l with
  | [] => []
  | c :: r => if is_space c then lstrip_l r else l
  end.

Definition rstrip_l (l : list ascii) : list ascii := rev (lstrip_l (rev l)).

Definition no_break (s : string) : Prop :=
  forall c, In c (list_ascii_of_string s) -> is_line_break c = false.

(** A line as [stripped_lines] yields it. *)
Definition clean (r : string) : Prop := strip r = r /\ r <> "" /\ no_break r.

Definition comma_free (s : string) : Prop :=
  forall c, In c (list_ascii_of_string s) -> c <> ","%char.

(** Storage holding rules text [text] and no merged file. *)
Definition storage_with_rules (subs : list subscription) (text : string) : storage :=
  {| subscriptions := subs; merged_file := None; custom_rules_file := Some text |}.

Definition sample_text : string :=
  "DOMAIN,a.com,DIRECT" ++ newline ++ " MATCH,Proxy " ++ newline ++ newline ++
  "domain, a.com ,REJECT".

Definition sample_fetch (u : string) : fetch_result :=
  if String.eqb u "http://ok" then Fetched (Some doc_plain) else FetchFailed.

Definition sample_subs : list subscription :=
  [Subscription "http://ok" None "1"; Subscription "http://down" None "2"].

(* ------------------------------------------------------------------ *)
(** ** General lemmas *)

Lemma bind_inv {A B} (m : M A) (k : A -> M B) h r :
  bind m k h = Ok r -> exists a h', m h = Ok (a, h') /\ k a h' = Ok r.
Proof.
  unfold bind. destruct (m h) as [[a h']|e]; [eauto | discriminate].
Qed.

Ltac inv_bind H :=
  apply bind_inv in H;
  let a := fresh "a" in let h := fresh "h" in let Hm := fresh "Hm" in
  destruct H as (a & h & Hm & H); cbv beta in H.

Lemma ret_inv {A} (a : A) h a' h' : ret a h = Ok (a', h') -> a' = a /\ h' = h.
Proof. unfold ret. intros E. inversion E. auto. Qed.

Lemma foldM_ind {A B} (f : A -> B -> M A) (P : B -> Prop) (I : A -> heap -> Prop) :
  (forall a x h a' h', P x -> I a h -> f a x h = Ok (a', h') -> I a' h') ->
  forall l a h a' h', Forall P l -> I a h -> foldM f a l h = Ok (a', h') -> I a' h'.
Proof.
  intros Hstep l. induction l as [|x xs IH]; intros a h a' h' HP HI E; simpl in E.
  - apply ret_inv in E. destruct E; subst; auto.
  - inversion HP; subst. inv_bind E.
    eapply IH; [eassumption | eapply Hstep; eassumption | exact E].
Qed.

Lemma prefix_app (p s : string) :
  String.prefix p s = true <-> exists r, s = p ++ r.
Proof.
  revert s. induction p as [|a p IH]; intros s.
  - split; [intros _; exists s; reflexivity | destruct s; reflexivity].
  - destruct s as [|b s].
    + split; [discriminate | intros [r E]; discriminate].
    + change (String.prefix (String a p) (String b s)) with
        (if ascii_dec a b then String.prefix p s else false).
      destruct (ascii_dec a b) as [<-|Hne].
      * rewrite IH. split; intros [r E]; exists r; simpl in *; congruence.
      * split; [discriminate | intros [r E]; inversion E; congruence].
Qed.

Lemma list_set_split {A} (i : nat) (x : A) (l : list A) :
  (i < length l)%nat -> list_set i x l = (firstn i l ++ x :: skipn (S i) l)%list.
Proof.
  revert i. induction l as [|y ys IH]; intros i Hi; simpl in *; [lia|].
  destruct i as [|j]; simpl; [reflexivity|]. rewrite IH by lia. reflexivity.
Qed.

Lemma skipn_last {A} (l : list A) (k : nat) (d : A) :
  length l = S k -> skipn k l = [nth k l d].
Proof.
  revert k. induction l as [|y ys IH]; intros k Hk; simpl in *; [discriminate|].
  destruct k as [|k].
  - destruct ys; [reflexivity | discriminate].
  - apply IH. lia.
Qed.

Lemma nth_error_list_set_same {A} (l : list A) i x :
  (i < length l)%nat -> nth_error (list_set i x l) i = Some x.
Proof.
  revert i. induction l as [|y ys IH]; intros i Hi; simpl in *; [lia|].
  destruct i; simpl; auto. apply IH. lia.
Qed.

Lemma nth_error_list_set_other {A} (l : list A) i j x :
  i <> j -> nth_error (list_set i x l) j = nth_error l j.
Proof.
  revert i j. induction l as [|y ys IH]; intros i j Hij;
    destruct i, j; simpl; auto; try congruence.
Qed.

Lemma length_list_set {A} (l : list A) i x : length (list_set i x l) = length l.
Proof.
  revert i. induction l; intros [|i]; simpl; auto.
Qed.

Lemma nth_error_app_new {A} (l : list A) x : nth_error (l ++ [x])%list (length l) = Some x.
Proof. rewrite nth_error_app2 by lia. rewrite Nat.sub_diag. reflexivity. Qed.

Lemma nth_error_app_old {A} (l : list A) x i :
  (i < length l)%nat -> nth_error (l ++ [x])%list i = nth_error l i.
Proof. intros; apply nth_error_app1; auto. Qed.

Lemma assoc_dict_set_same k v kvs : assoc k (dict_set k v kvs) = Some v.
Proof.
  induction kvs as [|[k' v'] r IH]; simpl.
  - rewrite String.eqb_refl. reflexivity.
  - destruct (String.eqb k k') eqn:E; simpl; rewrite E; auto.
Qed.

Lemma all_some_map_YStr xs : all_some (map as_str (map YStr xs)) = Some xs.
Proof. induction xs as [|x xs IH]; simpl; [reflexivity|]. rewrite IH. reflexivity. Qed.

(* ------------------------------------------------------------------ *)
(** ** Claims about [apply_prefix] and the rule rewriting *)

(** C7: [apply_prefix name prefix] is [name] for the reserved tokens
    [DIRECT], [REJECT], [GLOBAL], [Final] and for names starting with
    [Expire:] or [Traffic:], and [prefix ++ "_" ++ name] for every other
    string; as a Rocq function it is total. *)
Theorem apply_prefix_spec (name prefix : string) :
  (reserved_spec name -> apply_prefix name prefix = name) /\
  (~ reserved_spec name -> apply_prefix name prefix = prefix ++ "_" ++ name).
Proof.
  unfold apply_prefix, reserved_spec, mem. split.
  - intros H.
    destruct (existsb (String.eqb name) ["DIRECT"; "REJECT"; "GLOBAL"; "Final"]
              || String.prefix "Expire:" name || String.prefix "Traffic:" name) eqn:E;
      [reflexivity|].
    exfalso. apply Bool.orb_false_iff in E as [E E3].
    apply Bool.orb_false_iff in E as [E1 E2]. simpl in E1.
    rewrite !Bool.orb_false_iff in E1.
    destruct E1 as (Ed & Er & Eg & Ef & _).
    destruct H as [H|[H|[H|[H|[H|H]]]]];
      try (subst; discriminate).
    + apply (proj2 (prefix_app _ _)) in H. congruence.
    + apply (proj2 (prefix_app _ _)) in H. congruence.
  - intros H.
    destruct (existsb (String.eqb name) ["DIRECT"; "REJECT"; "GLOBAL"; "Final"]
              || String.prefix "Expire:" name || String.prefix "Traffic:" name) eqn:E;
      [|reflexivity].
    exfalso. apply H.
    apply Bool.orb_true_iff in E as [E|E3].
    + apply Bool.orb_true_iff in E as [E1|E2].
      * simpl in E1. rewrite !Bool.orb_true_iff in E1.
        destruct E1 as [E|[E|[E|[E|E]]]]; try discriminate;
          apply String.eqb_eq in E; subst; unfold reserved_spec; tauto.
      * apply prefix_app in E2. tauto.
    + apply prefix_app in E3. tauto.
Qed.

(** C6: a subscription rule line processed under label [L] is appended
    to the rule accumulator as [rewrite_rule L r]: unchanged when it has
    fewer than 3 comma-separated fields; otherwise, when its last field
    strips to [no-resolve], with the second-to-last field [f] replaced by
    [apply_prefix f L], else with the last field [f] replaced by
    [apply_prefix f L]; the other fields are kept and rejoined with commas. *)
Theorem rule_rewrite_target (L : string) (st : mstate) (r : string) (h : heap) :
  (exists st', merge_rule L st (YStr r) h = Ok (st', h) /\
               all_rules st' = (all_rules st ++ [rewrite_rule L r])%list) /\
  let ps := split_comma r in
  let n := length ps in
  ((n < 3)%nat -> rewrite_rule L r = r) /\
  ((3 <= n)%nat -> strip (nth (n - 1) ps "") = "no-resolve" ->
     rewrite_rule L r =
       join_comma (firstn (n - 2) ps ++ [apply_prefix (nth (n - 2) ps "") L;
                                         nth (n - 1) ps ""])) /\
  ((3 <= n)%nat -> strip (nth (n - 1) ps "") <> "no-resolve" ->
     rewrite_rule L r =
       join_comma (firstn (n - 1) ps ++ [apply_prefix (nth (n - 1) ps "") L])).
Proof.
  split.
  { eexists. split; [reflexivity | reflexivity]. }
  cbv zeta. unfold rewrite_rule.
  set (ps := split_comma r). set (n := length ps).
  split; [|split].
  - intros Hn. destruct (3 <=? n)%nat eqn:E; [apply Nat.leb_le in E; lia | reflexivity].
  - intros Hn Hnr.
    assert (E : (3 <=? n)%nat = true) by (apply Nat.leb_le; lia). rewrite E.
    rewrite Hnr, String.eqb_refl.
    rewrite list_set_split by (unfold n in *; lia).
    replace (S (n - 2)) with (n - 1)%nat by lia.
    rewrite (skipn_last ps (n - 1) "") by (unfold n in *; lia).
    reflexivity.
  - intros Hn Hnr.
    assert (E : (3 <=? n)%nat = true) by (apply Nat.leb_le; lia). rewrite E.
    destruct (String.eqb (strip (nth (n - 1) ps "")) "no-resolve") eqn:E2;
      [apply String.eqb_eq in E2; contradiction|].
    rewrite list_set_split by (unfold n in *; lia).
    rewrite skipn_all2 by (unfold n in *; lia).
    reflexivity.
Qed.

(** C8: merging an empty list of configurations returns the empty
    mapping, for every value of [custom_rules]. *)
Theorem merge_empty_configs (custom_rules : option (list string)) :
  merge_clash_configs [] custom_rules = Ok (YRef 0, [OMap []]).
Proof. reflexivity. Qed.

(* ------------------------------------------------------------------ *)
(** ** Documents with non-mapping content and with YAML aliases *)

(** C1 (failing input): a document text that parses without error to a
    non-mapping, such as [hello], makes [merge_clash_configs] raise
    [AttributeError] at [config.get("proxies", [])]. *)
Theorem merge_scalar_document_raises :
  merge_clash_configs [(Some doc_scalar, "sub1")] None = Err AttributeError.
Proof. vm_compute. reflexivity. Qed.

(** C2 (failing input): with a proxy dict listed twice through an alias,
    the merged proxy list holds the same dict twice, renamed twice, so
    the two proxy names are equal. *)
Theorem merge_aliased_proxy_names :
  merged_names [(Some doc_alias_proxy, "s")] "proxies" = Some ["s_s_A"; "s_s_A"] /\
  ~ NoDup ["s_s_A"; "s_s_A"].
Proof.
  split; [vm_compute; reflexivity|].
  intros Hnd. inversion Hnd as [|x l Hnotin _]. apply Hnotin. left. reflexivity.
Qed.

(** C4 (failing input): with a group dict listed twice through an alias,
    the emitted group's member [A] becomes [s_s_A], which is neither a
    reserved token nor a merged proxy or group name. *)
Theorem merge_aliased_group_dangling_member :
  merged_names [(Some doc_alias_group, "s")] "proxies" = Some ["s_A"] /\
  merged_names [(Some doc_alias_group, "s")] "proxy-groups" = Some ["s_s_G"; "s_s_G"] /\
  merged_members [(Some doc_alias_group, "s")] = Some [["s_s_A"]; ["s_s_A"]] /\
  ~ reserved_spec "s_s_A".
Proof.
  split; [vm_compute; reflexivity|].
  split; [vm_compute; reflexivity|].
  split; [vm_compute; reflexivity|].
  unfold reserved_spec.
  intros [H|[H|[H|[H|[[r H]|[r H]]]]]]; discriminate.
Qed.

(** C5 (failing input): the same document gives two emitted groups with
    the same name [s_s_G]. *)
Theorem merge_aliased_group_names :
  merged_names [(Some doc_alias_group, "s")] "proxy-groups" = Some ["s_s_G"; "s_s_G"] /\
  ~ NoDup ["s_s_G"; "s_s_G"].
Proof.
  split; [vm_compute; reflexivity|].
  intros Hnd. inversion Hnd as [|x l Hnotin _]. apply Hnotin. left. reflexivity.
Qed.

(* ------------------------------------------------------------------ *)
(** ** Absent or null collections *)

Lemma py_get_map l h kvs k :
  nth_error h l = Some (OMap kvs) -> py_get (YRef l) k h = Ok (assoc k kvs, h).
Proof. intros E. unfold py_get, bind, load. rewrite E. reflexivity. Qed.

(** C10: when the [proxies], [proxy-groups] or [rules] key of a source
    dict is absent or [None], the corresponding merge step leaves the
    merge state and the store as they were and raises nothing; and
    [custom_rules = None] merges as [custom_rules = Some []]. *)
Theorem absent_collections_empty (prefix : string) (h : heap) (l : loc)
    (kvs : list (string * yval)) (st : mstate) :
  nth_error h l = Some (OMap kvs) ->
  ((assoc "proxies" kvs = None \/ assoc "proxies" kvs = Some YNull) ->
     merge_proxies prefix (YRef l) st h = Ok (st, h)) /\
  ((assoc "proxy-groups" kvs = None \/ assoc "proxy-groups" kvs = Some YNull) ->
     merge_groups prefix (YRef l) st h = Ok (st, h)) /\
  ((assoc "rules" kvs = None \/ assoc "rules" kvs = Some YNull) ->
     merge_rules prefix (YRef l) st h = Ok (st, h)) /\
  (forall configs, merge_clash_configs configs None = merge_clash_configs configs (Some [])).
Proof.
  intros Hl.
  split; [|split; [|split]].
  - intros Hk. unfold merge_proxies. unfold bind at 1. rewrite (py_get_map _ _ _ _ Hl).
    destruct Hk as [Hk|Hk]; rewrite Hk; reflexivity.
  - intros Hk. unfold merge_groups. unfold bind at 1. rewrite (py_get_map _ _ _ _ Hl).
    destruct Hk as [Hk|Hk]; rewrite Hk; reflexivity.
  - intros Hk. unfold merge_rules. unfold bind at 1. rewrite (py_get_map _ _ _ _ Hl).
    destruct Hk as [Hk|Hk]; rewrite Hk; reflexivity.
  - intros configs. destruct configs as [|[c p] rest]; reflexivity.
Qed.

(* ------------------------------------------------------------------ *)
(** ** The rule accumulator and the rule dedup *)

Ltac crunch H :=
  repeat match type of H with
  | bind _ _ _ = Ok _ => inv_bind H
  | ret _ _ = Ok _ =>
      let E1 := fresh "E" in let E2 := fresh "E" in
      apply ret_inv in H; destruct H as [E1 E2]; subst
  | raise _ _ = Ok _ => unfold raise in H; discriminate H
  | (match ?c with _ => _ end) _ = Ok _ => destruct c eqn:?
  end.

Lemma split_comma_nonnil s : split_comma s <> [].
Proof.
  induction s as [|c r IH]; simpl; [discriminate|].
  destruct (Ascii.eqb c ","%char); [discriminate|].
  destruct (split_comma r); [contradiction | discriminate].
Qed.

Lemma existsb_app_one {A} (f : A -> bool) l x :
  existsb f (l ++ [x])%list = existsb f l || f x.
Proof. rewrite existsb_app. simpl. rewrite Bool.orb_false_r. reflexivity. Qed.

Lemma dedup_rules_keep_first l : forall seen before,
  (forall k, mem k seen = existsb (fun y => String.eqb (code_key y) k) before) ->
  dedup_rules seen l = keep_first_from code_key before l.
Proof.
  induction l as [|x xs IH]; intros seen before Hs; simpl; [reflexivity|].
  destruct (split_comma x) eqn:Esp; [exfalso; exact (split_comma_nonnil x Esp)|].
  rewrite <- Esp. fold (code_key x).
  rewrite Hs.
  destruct (existsb (fun y => String.eqb (code_key y) (code_key x)) before) eqn:Eb.
  - apply IH. intros k. rewrite existsb_app_one, <- Hs.
    destruct (String.eqb (code_key x) k) eqn:Ek; [|rewrite Bool.orb_false_r; reflexivity].
    apply String.eqb_eq in Ek; subst. rewrite Hs, Eb. reflexivity.
  - f_equal. apply IH. intros k. unfold mem at 1. simpl. fold (mem k seen).
    rewrite existsb_app_one, Hs, String.eqb_sym. apply Bool.orb_comm.
Qed.

Lemma keep_first_fresh l : forall before r,
  In r (keep_first_from code_key before l) -> forall y, In y before -> code_key y <> code_key r.
Proof.
  induction l as [|x xs IH]; intros before r Hin y Hy; simpl in Hin; [contradiction|].
  destruct (existsb (fun y => String.eqb (code_key y) (code_key x)) before) eqn:Eb.
  - eapply IH; eauto. apply in_or_app. left. exact Hy.
  - destruct Hin as [<-|Hin].
    + intros E. assert (existsb (fun y => String.eqb (code_key y) (code_key x)) before = true)
        as Ht by (apply existsb_exists; exists y; split; [exact Hy | apply String.eqb_eq; exact E]).
      congruence.
    + eapply IH; eauto. apply in_or_app. left. exact Hy.
Qed.

Lemma keep_first_nodup l : forall before,
  NoDup (map code_key (keep_first_from code_key before l)).
Proof.
  induction l as [|x xs IH]; intros before; simpl; [constructor|].
  destruct (existsb (fun y => String.eqb (code_key y) (code_key x)) before); [apply IH|].
  simpl. constructor; [|apply IH].
  intros Hin. apply in_map_iff in Hin as (r & Er & Hr).
  eapply (keep_first_fresh xs (before ++ [x])%list r Hr x); [|symmetry; exact Er].
  apply in_or_app. right. left. reflexivity.
Qed.

Lemma spec_rule_key_code r k : spec_rule_key r = Some k -> code_key r = k.
Proof.
  unfold spec_rule_key, code_key, rule_key.
  destruct (split_comma r) as [|p0 rest]; [discriminate|].
  destruct (String.eqb (upper (strip p0)) "MATCH"); [congruence|].
  destruct rest; congruence.
Qed.

Lemma spec_keys_nodup out :
  NoDup (map code_key out) -> NoDup (flat_map (fun r => opt_list (spec_rule_key r)) out).
Proof.
  induction out as [|r out IH]; intros Hnd; simpl; [constructor|].
  inversion Hnd as [|x l Hnotin Hnd']; subst.
  destruct (spec_rule_key r) as [k|] eqn:Ek; simpl; [|apply IH; exact Hnd'].
  constructor; [|apply IH; exact Hnd'].
  intros Hin. apply in_flat_map in Hin as (r' & Hr' & Hk).
  destruct (spec_rule_key r') as [k'|] eqn:Ek'; simpl in Hk; [|contradiction].
  destruct Hk as [<-|[]].
  apply Hnotin. apply in_map_iff. exists r'. split; [|exact Hr'].
  rewrite (spec_rule_key_code _ _ Ek'), (spec_rule_key_code _ _ Ek). reflexivity.
Qed.

Lemma merge_proxy_rules p st x h st' h' :
  merge_proxy p st x h = Ok (st', h') -> all_rules st' = all_rules st.
Proof. unfold merge_proxy. intros H. cbv zeta in H. crunch H; reflexivity. Qed.

Lemma merge_group_rules p st x h st' h' :
  merge_group p st x h = Ok (st', h') -> all_rules st' = all_rules st.
Proof. unfold merge_group. intros H. cbv zeta in H. crunch H; reflexivity. Qed.

Lemma merge_rule_rules p st x h st' h' :
  merge_rule p st x h = Ok (st', h') ->
  exists s, all_rules st' = (all_rules st ++ [rewrite_rule p s])%list.
Proof. unfold merge_rule. intros H. crunch H. eexists. reflexivity. Qed.

Lemma merge_proxies_rules p c st h st' h' :
  merge_proxies p c st h = Ok (st', h') -> all_rules st' = all_rules st.
Proof.
  unfold merge_proxies. intros H. crunch H.
  apply (foldM_ind (merge_proxy p) (fun _ => True)
           (fun s _ => all_rules s = all_rules st)) in H; auto.
  - intros s0 x hh s1 hh' _ Ha E. rewrite (merge_proxy_rules _ _ _ _ _ _ E). exact Ha.
  - apply Forall_forall. auto.
Qed.

Lemma merge_groups_rules p c st h st' h' :
  merge_groups p c st h = Ok (st', h') -> all_rules st' = all_rules st.
Proof.
  unfold merge_groups. intros H. crunch H.
  apply (foldM_ind (merge_group p) (fun _ => True)
           (fun s _ => all_rules s = all_rules st)) in H; auto.
  - intros s0 x hh s1 hh' _ Ha E. rewrite (merge_group_rules _ _ _ _ _ _ E). exact Ha.
  - apply Forall_forall. auto.
Qed.

Lemma merge_rules_rules p c st h st' h' :
  merge_rules p c st h = Ok (st', h') ->
  exists sub, all_rules st' = (all_rules st ++ sub)%list /\ rewritten_under p sub.
Proof.
  unfold merge_rules. intros H. crunch H.
  apply (foldM_ind (merge_rule p) (fun _ => True)
           (fun s _ => exists sub, all_rules s = (all_rules st ++ sub)%list
                                   /\ rewritten_under p sub)) in H; auto.
  - intros s0 x hh s1 hh' _ (sub & Ha & Hsub) E.
    destruct (merge_rule_rules _ _ _ _ _ _ E) as [s Es].
    exists (sub ++ [rewrite_rule p s])%list. split.
    + rewrite Es, Ha, app_assoc. reflexivity.
    + apply Forall_app. split; [exact Hsub|]. constructor; [eexists; reflexivity | constructor].
  - apply Forall_forall. auto.
  - exists []. rewrite app_nil_r. split; [reflexivity | constructor].
Qed.

Lemma merge_config_rules st cfg h st' h' :
  merge_config st cfg h = Ok (st', h') ->
  exists sub, all_rules st' = (all_rules st ++ sub)%list /\ rewritten_under (snd cfg) sub.
Proof.
  unfold merge_config. intros H. crunch H.
  apply merge_proxies_rules in Hm0. apply merge_groups_rules in Hm1.
  apply merge_rules_rules in H. destruct H as (sub & E & Hsub).
  exists sub. split; [congruence | exact Hsub].
Qed.

Lemma merge_loop_rules configs st h st' h' :
  foldM merge_config st configs h = Ok (st', h') ->
  exists sub, all_rules st' = (all_rules st ++ sub)%list /\ from_sources configs sub.
Proof.
  intros H.
  apply (foldM_ind merge_config (fun cfg => In (snd cfg) (map snd configs))
           (fun s _ => exists sub, all_rules s = (all_rules st ++ sub)%list
                                   /\ from_sources configs sub)) in H; auto.
  - intros s0 cfg hh s1 hh' Hin (sub & Ha & Hsub) E.
    destruct (merge_config_rules _ _ _ _ _ E) as (sub' & E' & Hsub').
    exists (sub ++ sub')%list. split.
    + rewrite E', Ha, app_assoc. reflexivity.
    + apply Forall_app. split; [exact Hsub|].
      eapply Forall_impl; [|exact Hsub'].
      intros r [s Es]. exists (snd cfg), s. auto.
  - apply Forall_forall. intros x Hx. apply in_map. exact Hx.
  - exists []. rewrite app_nil_r. split; [reflexivity | constructor].
Qed.

Lemma alloc_inv o h l h' : alloc o h = Ok (l, h') -> l = length h /\ h' = (h ++ [o])%list.
Proof. unfold alloc. intros E. inversion E. auto. Qed.

Lemma py_setitem_inv v k x h u h' :
  py_setitem v k x h = Ok (u, h') ->
  exists l kvs, v = YRef l /\ nth_error h l = Some (OMap kvs) /\
                h' = list_set l (OMap (dict_set k x kvs)) h.
Proof.
  unfold py_setitem. intros H. destruct v; try (unfold raise in H; discriminate H).
  crunch H.
  unfold load in Hm. destruct (nth_error h l) eqn:El; [|discriminate].
  inversion Hm; subst.
  unfold store in H. rewrite El in H. inversion H; subst. eauto.
Qed.

(** C3: the merged rule list is the first-seen-wins filter, by the dedup
    key, of the stripped non-blank custom rules followed by the rewritten
    subscription rules; it holds at most one line per key in the spec's
    sense ([MATCH] for a [MATCH] line, [TYPE,VALUE] with the stripped
    second field otherwise), a key the code computes the same way. *)
Theorem merged_rules_first_wins (configs : list (parsed * string))
    (custom_rules : option (list string)) (v : yval) (h : heap) :
  configs <> [] ->
  merge_clash_configs configs custom_rules = Ok (v, h) ->
  exists sub out,
    from_sources configs sub /\
    doc_rules h v = Some out /\
    out = keep_first code_key (custom_pre custom_rules ++ sub) /\
    NoDup (flat_map (fun r => opt_list (spec_rule_key r)) out) /\
    (forall r k, spec_rule_key r = Some k -> code_key r = k).
Proof.
  intros Hne H. destruct configs as [|[base lbl] rest]; [contradiction|].
  unfold merge_clash_configs, merge_body in H. crunch H.
  destruct (merge_loop_rules _ _ _ _ _ Hm0) as (sub & Esub & Hsub).
  simpl in Esub.
  apply alloc_inv in Hm5 as [-> ->].
  apply py_setitem_inv in Hm6 as (l & kvs & -> & Hl & ->).
  exists sub, (keep_first code_key (custom_pre custom_rules ++ sub)).
  assert (Hlen : l <> length h5).
  { intros ->. rewrite nth_error_app_new in Hl. discriminate. }
  assert (Hlt : (l < length (h5 ++ [OSeq (map YStr (dedup_rules [] (all_rules a0)))]))%nat).
  { apply nth_error_Some. congruence. }
  split; [exact Hsub|]. split; [|split; [reflexivity|split]].
  - unfold doc_rules, doc_field, doc_seq, deref.
    rewrite nth_error_list_set_same by exact Hlt.
    rewrite assoc_dict_set_same.
    rewrite nth_error_list_set_other by exact Hlen.
    rewrite nth_error_app_new, all_some_map_YStr.
    rewrite Esub. f_equal. apply dedup_rules_keep_first. reflexivity.
  - apply spec_keys_nodup. apply keep_first_nodup.
  - apply spec_rule_key_code.
Qed.

(* ------------------------------------------------------------------ *)
(** ** The loop leaves the base document's objects alone *)

Section Frame.

(** Objects of the base document sit below [n0]; every later parse and
    every list the loop builds sits at or above it. *)
Variable n0 : nat.
Variable h0 : heap.

Lemma load_above h l o h' :
  Inv n0 h0 h -> (n0 <= l)%nat -> load l h = Ok (o, h') -> h' = h /\ (obj_above n0) o.
Proof.
  intros (_ & _ & Hab) Hl E. unfold load in E.
  destruct (nth_error h l) eqn:El; inversion E; subst. eauto.
Qed.

Lemma assoc_above k kvs x :
  Forall (fun kv => (val_above n0) (snd kv)) kvs -> assoc k kvs = Some x -> (val_above n0) x.
Proof.
  induction kvs as [|[k' v'] r IH]; simpl; intros Hf E; [discriminate|].
  inversion Hf; subst.
  destruct (String.eqb k k'); [inversion E; subst; assumption | auto].
Qed.

Lemma py_get_above h v k r h' :
  Inv n0 h0 h -> (val_above n0) v -> py_get v k h = Ok (r, h') ->
  h' = h /\ (forall x, r = Some x -> (val_above n0) x).
Proof.
  intros Hi Hv E. unfold py_get in E.
  destruct v; try (unfold raise in E; discriminate E).
  crunch E.
  - apply load_above in Hm as [-> Ho]; auto.
    split; [reflexivity|]. intros x Ex. eapply assoc_above; [apply Ho | exact Ex].
Qed.

Lemma py_iter_above h v xs h' :
  Inv n0 h0 h -> (val_above n0) v -> py_iter v h = Ok (xs, h') -> h' = h /\ Forall (val_above n0) xs.
Proof.
  intros Hi Hv E. unfold py_iter in E.
  destruct v; try (unfold raise in E; discriminate E).
  - apply ret_inv in E as [-> ->]. split; [reflexivity|].
    apply Forall_forall. intros x Hx. apply in_map_iff in Hx as (c & <- & _). exact I.
  - crunch E; destruct (load_above _ _ _ _ Hi Hv Hm) as [-> Ho];
      (split; [reflexivity|]).
    + exact Ho.
    + apply Forall_forall. intros x Hx. apply in_map_iff in Hx as (kv & <- & _). exact I.
Qed.

Lemma py_iter_or_empty_above h v xs h' :
  Inv n0 h0 h -> (forall x, v = Some x -> (val_above n0) x) ->
  py_iter_or_empty v h = Ok (xs, h') -> h' = h /\ Forall (val_above n0) xs.
Proof.
  intros Hi Hv E. unfold py_iter_or_empty in E. destruct v as [x|].
  - crunch E; unfold get_heap in Hm; inversion Hm; subst; auto.
    eapply py_iter_above; eauto.
  - apply ret_inv in E as [-> ->]. auto.
Qed.

Lemma dict_set_above k x kvs :
  Forall (fun kv => (val_above n0) (snd kv)) kvs -> (val_above n0) x ->
  Forall (fun kv => (val_above n0) (snd kv)) (dict_set k x kvs).
Proof.
  induction kvs as [|[k' v'] r IH]; simpl; intros Hf Hx; [constructor; auto|].
  inversion Hf; subst. destruct (String.eqb k k'); constructor; auto.
Qed.

Lemma store_above h l o u h' :
  Inv n0 h0 h -> (n0 <= l)%nat -> (obj_above n0) o -> store l o h = Ok (u, h') -> Inv n0 h0 h'.
Proof.
  intros (Hlen & Hlow & Hab) Hl Ho E. unfold store in E.
  destruct (nth_error h l) eqn:El; inversion E; subst. clear E.
  split; [|split].
  - rewrite length_list_set. exact Hlen.
  - intros l' Hl'. rewrite nth_error_list_set_other by lia. auto.
  - intros l' o' Hl' E'. destruct (Nat.eq_dec l l') as [<-|Hne].
    + rewrite nth_error_list_set_same in E' by (apply nth_error_Some; congruence).
      inversion E'; subst. exact Ho.
    + rewrite nth_error_list_set_other in E' by exact Hne. eauto.
Qed.

Lemma py_setitem_above h v k x u h' :
  Inv n0 h0 h -> (val_above n0) v -> (val_above n0) x -> py_setitem v k x h = Ok (u, h') -> Inv n0 h0 h'.
Proof.
  intros Hi Hv Hx E. unfold py_setitem in E.
  destruct v; try (unfold raise in E; discriminate E).
  crunch E.
  apply load_above in Hm as [-> Ho]; auto.
  apply (store_above h l (OMap (dict_set k x kvs)) u h'); [exact Hi | exact Hv | | exact E].
  apply dict_set_above; [apply Ho | exact Hx].
Qed.

Lemma alloc_above h o l h' :
  Inv n0 h0 h -> (obj_above n0) o -> alloc o h = Ok (l, h') -> Inv n0 h0 h' /\ (n0 <= l)%nat.
Proof.
  intros (Hlen & Hlow & Hab) Ho E. apply alloc_inv in E as [-> ->].
  split; [|exact Hlen]. split; [|split].
  - rewrite length_app. lia.
  - intros l' Hl'. rewrite nth_error_app_old by lia. auto.
  - intros l' o' Hl' E'. destruct (Nat.lt_ge_cases l' (length h)) as [Hlt|Hge].
    + rewrite nth_error_app_old in E' by exact Hlt. eauto.
    + rewrite nth_error_app2 in E' by exact Hge.
      destruct (l' - length h)%nat as [|m]; simpl in E'; [congruence|].
      destruct m; discriminate.
Qed.

Lemma obj_above_strs xs : (obj_above n0) (OSeq (map YStr xs)).
Proof.
  simpl. apply Forall_forall. intros x Hx. apply in_map_iff in Hx as (s & <- & _). exact I.
Qed.

Lemma shift_obj_above off o : (n0 <= off)%nat -> (obj_above n0) (shift_obj off o).
Proof.
  intros Hoff. destruct o as [xs|kvs]; simpl; apply Forall_forall.
  - intros x Hx. apply in_map_iff in Hx as (y & <- & _). destruct y; simpl; auto; lia.
  - intros x Hx. apply in_map_iff in Hx as ([k y] & <- & _). destruct y; simpl; auto; lia.
Qed.

Lemma load_doc_above h d v h' :
  Inv n0 h0 h -> load_doc d h = Ok (v, h') -> Inv n0 h0 h' /\ (val_above n0) v.
Proof.
  intros (Hlen & Hlow & Hab) E. unfold load_doc in E. inversion E; subst. clear E.
  split.
  - split; [|split].
    + rewrite length_app. lia.
    + intros l Hl. rewrite nth_error_app1 by lia. auto.
    + intros l o Hl E. destruct (Nat.lt_ge_cases l (length h)) as [Hlt|Hge].
      * rewrite nth_error_app1 in E by exact Hlt. eauto.
      * rewrite nth_error_app2 in E by exact Hge.
        apply nth_error_In in E. apply in_map_iff in E as (o0 & <- & _).
        apply shift_obj_above. exact Hlen.
  - destruct (snd d); simpl; auto. lia.
Qed.

Lemma safe_load_above h p v h' :
  Inv n0 h0 h -> safe_load_yaml p h = Ok (v, h') -> Inv n0 h0 h' /\ (val_above n0) v.
Proof.
  intros Hi E. unfold safe_load_yaml in E. destruct p as [d|].
  - crunch E.
    + unfold get_heap in Hm0. inversion Hm0; subst.
      eapply load_doc_above; eauto.
    + unfold get_heap in Hm0. inversion Hm0; subst.
      destruct (load_doc_above _ _ _ _ Hi Hm) as [Hi1 _].
      destruct (alloc_above _ (OMap []) _ _ Hi1 ltac:(simpl; constructor) Hm1) as [Hi2 Hl].
      split; [exact Hi2 | exact Hl].
  - crunch E.
    destruct (alloc_above _ (OMap []) _ _ Hi ltac:(simpl; constructor) Hm) as [Hi2 Hl].
    split; [exact Hi2 | exact Hl].
Qed.

Lemma py_apply_prefix_heap v p h s h' : py_apply_prefix v p h = Ok (s, h') -> h' = h.
Proof.
  unfold py_apply_prefix. destruct v; intros E; try (unfold raise in E; discriminate E).
  apply ret_inv in E. tauto.
Qed.

Lemma mapM_apply_heap p ms h r h' :
  mapM (fun m => py_apply_prefix m p) ms h = Ok (r, h') -> h' = h.
Proof.
  revert h r. induction ms as [|m ms IH]; intros h r E; simpl in E.
  - apply ret_inv in E. tauto.
  - crunch E. apply py_apply_prefix_heap in Hm. apply IH in Hm0. congruence.
Qed.

Ltac frame_step :=
  match goal with
  | Hm : get_heap ?h = Ok (_, _) |- _ =>
      unfold get_heap in Hm; inversion Hm; subst; clear Hm
  | Hi : Inv n0 h0 ?h, Hm : py_get ?v _ ?h = Ok (_, _) |- _ =>
      let Hv := fresh "Hv" in
      destruct (py_get_above h v _ _ _ Hi ltac:(assumption) Hm) as [? Hv]; subst; clear Hm
  | Hi : Inv n0 h0 ?h, Hm : py_iter_or_empty ?v ?h = Ok (_, _) |- _ =>
      let Hf := fresh "Hf" in
      destruct (py_iter_or_empty_above h v _ _ Hi ltac:(assumption) Hm) as [? Hf];
      subst; clear Hm
  | Hm : py_apply_prefix _ _ _ = Ok (_, _) |- _ => apply py_apply_prefix_heap in Hm; subst
  | Hm : mapM _ _ _ = Ok (_, _) |- _ => apply mapM_apply_heap in Hm; subst
  | Hi : Inv n0 h0 ?h, Hm : py_setitem ?v ?k ?x ?h = Ok (?u, ?h') |- _ =>
      let Hi' := fresh "Hi" in
      assert (Hi' : Inv n0 h0 h')
        by (apply (py_setitem_above h v k x u h');
            [exact Hi | assumption | first [exact I | assumption | simpl; lia] | exact Hm]);
      clear Hm Hi
  | Hi : Inv n0 h0 ?h, Hm : alloc ?o ?h = Ok (_, ?h') |- _ =>
      let Hi' := fresh "Hi" in let Hl := fresh "Hl" in
      destruct (alloc_above _ o _ _ Hi ltac:(first [simpl; constructor | apply obj_above_strs]) Hm)
        as [Hi' Hl];
      clear Hm Hi
  end.

Lemma merge_proxy_above p st x h st' h' :
  Inv n0 h0 h -> (val_above n0) x -> merge_proxy p st x h = Ok (st', h') -> Inv n0 h0 h'.
Proof.
  intros Hi Hx E. unfold merge_proxy in E. cbv zeta in E. crunch E; repeat frame_step; assumption.
Qed.

Lemma merge_group_above p st x h st' h' :
  Inv n0 h0 h -> (val_above n0) x -> merge_group p st x h = Ok (st', h') -> Inv n0 h0 h'.
Proof.
  intros Hi Hx E. unfold merge_group in E. cbv zeta in E. crunch E; repeat frame_step; assumption.
Qed.

Lemma merge_rule_heap p st x h st' h' : merge_rule p st x h = Ok (st', h') -> h' = h.
Proof. unfold merge_rule. intros E. crunch E. reflexivity. Qed.

Lemma merge_config_above st cfg h st' h' :
  Inv n0 h0 h -> merge_config st cfg h = Ok (st', h') -> Inv n0 h0 h'.
Proof.
  intros Hi E. unfold merge_config in E. crunch E.
  destruct (safe_load_above _ _ _ _ Hi Hm) as [Hi0 Hc].
  unfold merge_proxies in Hm0. crunch Hm0. repeat frame_step.
  apply (foldM_ind (merge_proxy (snd cfg)) (val_above n0) (fun _ hh => Inv n0 h0 hh)) in Hm0;
    [| intros; eapply merge_proxy_above; eauto | assumption | assumption].
  unfold merge_groups in Hm1. crunch Hm1. repeat frame_step.
  apply (foldM_ind (merge_group (snd cfg)) (val_above n0) (fun _ hh => Inv n0 h0 hh)) in Hm1;
    [| intros; eapply merge_group_above; eauto | assumption | assumption].
  unfold merge_rules in E. crunch E. repeat frame_step.
  apply (foldM_ind (merge_rule (snd cfg)) (fun _ => True) (fun _ hh => Inv n0 h0 hh)) in E;
    [assumption
    | intros ? ? ? ? ? _ Hh Er; apply merge_rule_heap in Er; subst; exact Hh
    | apply Forall_forall; auto
    | assumption].
Qed.

Lemma merge_loop_above st configs h st' h' :
  Inv n0 h0 h -> foldM merge_config st configs h = Ok (st', h') -> Inv n0 h0 h'.
Proof.
  intros Hi E.
  apply (foldM_ind merge_config (fun _ => True) (fun _ hh => Inv n0 h0 hh)) in E; auto.
  - intros ? ? ? ? ? _ Hh Ec. eapply merge_config_above; eauto.
  - apply Forall_forall; auto.
Qed.

End Frame.

(* ------------------------------------------------------------------ *)
(** ** The base document's other settings *)

Lemma filter_other_dict_set key x kvs :
  mem key collection_keys = true ->
  filter other_setting (dict_set key x kvs) = filter other_setting kvs.
Proof.
  intros Hk.
  assert (Ho : forall y, other_setting (key, y) = false)
    by (intros y; unfold other_setting; cbn [fst]; rewrite Hk; reflexivity).
  induction kvs as [|[k' v'] r IH]; cbn [dict_set filter].
  - rewrite Ho. reflexivity.
  - destruct (String.eqb key k') eqn:E.
    + apply String.eqb_eq in E. subst. cbn [filter]. rewrite !Ho. reflexivity.
    + cbn [filter]. destruct (other_setting (k', v')); rewrite IH; reflexivity.
Qed.

Lemma keys_dict_set key x kvs k :
  In k (map fst (dict_set key x kvs)) <-> In k (map fst kvs) \/ k = key.
Proof.
  induction kvs as [|[k' v'] r IH]; simpl.
  - split; [intros [E|[]]; auto | intros [[]|E]; auto].
  - destruct (String.eqb key k') eqn:E; simpl.
    + apply String.eqb_eq in E. subst. split; [tauto|]. intros [H|H]; auto.
    + rewrite IH. tauto.
Qed.

Lemma shift_obj_0 o : shift_obj 0 o = o.
Proof.
  destruct o as [xs|kvs]; simpl; f_equal.
  - induction xs as [|x xs IH]; simpl; [reflexivity|]. rewrite IH. destruct x; reflexivity.
  - induction kvs as [|[k x] r IH]; simpl; [reflexivity|]. rewrite IH. destruct x; reflexivity.
Qed.

Lemma safe_load_base hb k kvs v h' :
  nth_error hb k = Some (OMap kvs) ->
  safe_load_yaml (Some (hb, YRef k)) [] = Ok (v, h') ->
  exists k0, v = YRef k0 /\ nth_error h' k0 = Some (OMap kvs) /\
    (length hb <= length h')%nat /\
    (forall l, (l < length hb)%nat -> nth_error h' l = nth_error hb l) /\
    (k0 = k \/ length hb <= k0)%nat.
Proof.
  intros Hk E. unfold safe_load_yaml in E.
  assert (Hd : load_doc (hb, YRef k) [] = Ok (YRef k, hb)).
  { unfold load_doc. cbn [length fst snd app shift_val]. do 2 f_equal.
    clear. induction hb as [|o hb IH]; cbn [map]; [reflexivity|].
    rewrite shift_obj_0, IH. reflexivity. }
  unfold bind at 1 in E. rewrite Hd in E.
  unfold bind, get_heap in E. simpl in E. rewrite Hk in E.
  destruct kvs as [|kv kvs'].
  - unfold alloc, ret in E. simpl in E. inversion E; subst.
    exists (length hb). split; [reflexivity|]. split; [apply nth_error_app_new|].
    split; [rewrite length_app; simpl; lia|]. split; [|right; lia].
    intros l Hl. apply nth_error_app_old. exact Hl.
  - unfold ret in E. inversion E; subst.
    exists k. repeat split; auto.
Qed.

Lemma alloc_set_base k0 kvs0 hx o key lx hy u hz :
  nth_error hx k0 = Some (OMap kvs0) ->
  alloc o hx = Ok (lx, hy) ->
  py_setitem (YRef k0) key (YRef lx) hy = Ok (u, hz) ->
  nth_error hz k0 = Some (OMap (dict_set key (YRef lx) kvs0)) /\
  (length hx <= length hz)%nat /\
  (forall l, (l < length hx)%nat -> l <> k0 -> nth_error hz l = nth_error hx l).
Proof.
  intros Hk Ha Hs.
  assert (Hlt : (k0 < length hx)%nat) by (apply nth_error_Some; congruence).
  apply alloc_inv in Ha as [-> ->].
  apply py_setitem_inv in Hs as (l & kvs & El & Hl & ->). inversion El; subst l.
  rewrite nth_error_app_old in Hl by exact Hlt. rewrite Hk in Hl. inversion Hl; subst kvs.
  split; [|split].
  - apply nth_error_list_set_same. rewrite length_app. lia.
  - rewrite length_list_set, length_app. lia.
  - intros l Hl' Hne. rewrite nth_error_list_set_other by congruence.
    apply nth_error_app_old. exact Hl'.
Qed.

(** C9: when the first configuration parses to a mapping, the merged
    document is that mapping with [proxies], [proxy-groups] and [rules]
    set: its other entries (keys and values) are those of the base
    document in their order, its keys are the base keys plus those three,
    and every other object of the base document is unchanged (a parse
    result only refers to its own objects, so these are all the objects
    the retained values reach). *)
Theorem merge_keeps_base_settings (hb : heap) (k : loc) (kvs : list (string * yval))
    (lb : string) (rest : list (parsed * string)) (custom_rules : option (list string))
    (v : yval) (hm : heap) :
  nth_error hb k = Some (OMap kvs) ->
  merge_clash_configs ((Some (hb, YRef k), lb) :: rest) custom_rules = Ok (v, hm) ->
  exists k' kvs',
    v = YRef k' /\ nth_error hm k' = Some (OMap kvs') /\
    filter other_setting kvs' = filter other_setting kvs /\
    (forall key, In key (map fst kvs') <-> In key (map fst kvs) \/ In key collection_keys) /\
    (forall l, (l < length hb)%nat -> l <> k -> nth_error hm l = nth_error hb l).
Proof.
  intros Hk H. unfold merge_clash_configs, merge_body in H. crunch H.
  destruct (safe_load_base _ _ _ _ _ Hk Hm) as (k0 & -> & Hk0 & Hlen0 & Hlow0 & Hkk).
  set (n0 := length h) in *.
  assert (Hk0lt : (k0 < n0)%nat) by (apply nth_error_Some; congruence).
  assert (Hi : Inv n0 h h0).
  { eapply merge_loop_above; [|exact Hm0]. split; [lia|]. split; [auto|].
    intros l o Hl El. assert (nth_error h l <> None) by congruence. apply nth_error_Some in H. lia. }
  destruct Hi as (Hlen1 & Hlow1 & _).
  assert (Hk1 : nth_error h0 k0 = Some (OMap kvs)) by (rewrite Hlow1; auto).
  destruct (alloc_set_base _ _ _ _ _ _ _ _ _ Hk1 Hm1 Hm2) as (Hk3 & Hlen3 & Hlow3).
  destruct (alloc_set_base _ _ _ _ _ _ _ _ _ Hk3 Hm3 Hm4) as (Hk5 & Hlen5 & Hlow5).
  destruct (alloc_set_base _ _ _ _ _ _ _ _ _ Hk5 Hm5 Hm6) as (Hk7 & Hlen7 & Hlow7).
  eexists k0, _. split; [reflexivity|]. split; [exact Hk7|]. split; [|split].
  - rewrite !filter_other_dict_set by reflexivity. reflexivity.
  - intros key. rewrite !keys_dict_set. unfold collection_keys. simpl. split.
    + intros [[[HH|HH]|HH]|HH]; subst; auto 7.
    + intros [HH|[HH|[HH|[HH|[]]]]]; subst; auto 7.
  - intros l Hl Hne.
    assert (Hne0 : l <> k0) by (destruct Hkk; lia).
    rewrite Hlow7, Hlow5, Hlow3, Hlow1, Hlow0 by lia. reflexivity.
Qed.

(* ------------------------------------------------------------------ *)
(** ** The proxy rename loop always ends on an unused name *)

Lemma append_cancel_l (p x y : string) : p ++ x = p ++ y -> x = y.
Proof. induction p as [|c p IH]; simpl; intros E; [exact E | inversion E; auto]. Qed.

Lemma length_append_str (p s : string) : String.length (p ++ s) = (String.length p + String.length s)%nat.
Proof. induction p as [|c p IH]; simpl; congruence. Qed.

Lemma string_of_uint_inj d1 : forall d2, string_of_uint d1 = string_of_uint d2 -> d1 = d2.
Proof.
  induction d1; intros d2; destruct d2; simpl; intros E;
    try discriminate; try reflexivity; inversion E; f_equal; auto.
Qed.

Lemma candidate_inj o i j : candidate o i = candidate o j -> i = j.
Proof.
  unfold candidate, str_nat. intros E. apply append_cancel_l in E.
  inversion E as [E']. apply string_of_uint_inj in E'.
  apply DecimalNat.Unsigned.to_uint_inj. exact E'.
Qed.

Lemma candidate_neq o i : candidate o i <> o.
Proof.
  unfold candidate. intros E. apply (f_equal String.length) in E.
  rewrite length_append_str in E. simpl in E. lia.
Qed.

Lemma mem_In s l : mem s l = true <-> In s l.
Proof.
  unfold mem. rewrite existsb_exists. split.
  - intros (x & Hx & E). apply String.eqb_eq in E. subst. exact Hx.
  - intros Hs. exists s. split; [exact Hs | apply String.eqb_refl].
Qed.

Lemma dedup_loop_fresh existing original fuel : forall counter cur seen,
  NoDup seen -> incl seen existing -> ~ In cur seen ->
  (forall i, (counter <= i)%nat -> ~ In (candidate original i) seen /\ candidate original i <> cur) ->
  (length existing < length seen + S fuel)%nat ->
  mem (dedup_loop existing original counter fuel cur) existing = false.
Proof.
  induction fuel as [|f IH]; intros counter cur seen Hnd Hinc Hcur Hcand Hlen; simpl.
  - destruct (mem cur existing) eqn:Em; [|exact Em]. exfalso.
    apply mem_In in Em.
    assert (Hnd' : NoDup (cur :: seen)) by (constructor; assumption).
    assert (Hinc' : incl (cur :: seen) existing) by (intros x [<-|Hx]; auto).
    apply (NoDup_incl_length Hnd') in Hinc'. simpl in Hinc'. lia.
  - destruct (mem cur existing) eqn:Em; [|exact Em].
    apply mem_In in Em.
    apply (IH (S counter) (candidate original counter) (cur :: seen)).
    + constructor; assumption.
    + intros x [<-|Hx]; auto.
    + intros [E|Hin].
      * destruct (Hcand counter (le_n _)) as [_ Hne]. congruence.
      * destruct (Hcand counter (le_n _)) as [Hni _]. contradiction.
    + intros i Hi. split.
      * intros [E|Hin].
        -- destruct (Hcand i ltac:(lia)) as [_ Hne]. congruence.
        -- destruct (Hcand i ltac:(lia)) as [Hni _]. contradiction.
      * intros E. apply candidate_inj in E. lia.
    + simpl. lia.
Qed.

(** The bound of [dedup_name]: within [length existing + 1] rounds the
    loop reaches a name not in [existing], so the bounded loop computes
    what the unbounded [while] loop computes. *)
Lemma dedup_name_fresh existing prefixed_name :
  mem (dedup_name existing prefixed_name) existing = false.
Proof.
  unfold dedup_name. apply (dedup_loop_fresh existing prefixed_name _ 1 prefixed_name []).
  - constructor.
  - intros x [].
  - intros [].
  - intros i _. split; [intros [] | apply candidate_neq].
  - simpl. lia.
Qed.

(* ------------------------------------------------------------------ *)
(** ** Witnesses: the theorems applied to concrete inputs *)

Lemma apply_prefix_spec_witness :
  apply_prefix "DIRECT" "sub1" = "DIRECT" /\ apply_prefix "Traffic: 1GB" "sub1" = "Traffic: 1GB" /\
  apply_prefix "ProxyA" "sub1" = "sub1_ProxyA".
Proof.
  split; [|split].
  - apply (proj1 (apply_prefix_spec "DIRECT" "sub1")). left. reflexivity.
  - apply (proj1 (apply_prefix_spec "Traffic: 1GB" "sub1")).
    right; right; right; right; right. exists " 1GB". reflexivity.
  - apply (proj2 (apply_prefix_spec "ProxyA" "sub1")).
    unfold reserved_spec. intros [H|[H|[H|[H|[[r H]|[r H]]]]]]; discriminate.
Defined.

Lemma rule_rewrite_target_witness :
  rewrite_rule "subX" "IP-CIDR,10.0.0.0/8,ProxyA,no-resolve"
    = "IP-CIDR,10.0.0.0/8,subX_ProxyA,no-resolve" /\
  rewrite_rule "subX" "DOMAIN,x.com,ProxyA" = "DOMAIN,x.com,subX_ProxyA" /\
  rewrite_rule "subX" "MATCH,ProxyA" = "MATCH,ProxyA".
Proof.
  pose proof (rule_rewrite_target "subX" (empty_state None)
                "IP-CIDR,10.0.0.0/8,ProxyA,no-resolve" []) as H1.
  pose proof (rule_rewrite_target "subX" (empty_state None) "DOMAIN,x.com,ProxyA" []) as H2.
  pose proof (rule_rewrite_target "subX" (empty_state None) "MATCH,ProxyA" []) as H3.
  cbv zeta in H1, H2, H3.
  destruct H1 as [_ [_ [H1 _]]]. destruct H2 as [_ [_ [_ H2]]]. destruct H3 as [_ [H3 _]].
  split; [|split].
  - rewrite H1; [reflexivity | apply Nat.leb_le; reflexivity | reflexivity].
  - rewrite H2; [reflexivity | apply Nat.leb_le; reflexivity | discriminate].
  - apply H3. apply Nat.leb_gt. reflexivity.
Defined.

Lemma absent_collections_empty_witness :
  nth_error [OMap []] 0 = Some (OMap []) /\
  merge_proxies "sub1" (YRef 0) (empty_state None) [OMap []]
    = Ok (empty_state None, [OMap []]) /\
  merge_groups "sub1" (YRef 0) (empty_state None) [OMap []]
    = Ok (empty_state None, [OMap []]) /\
  merge_rules "sub1" (YRef 0) (empty_state None) [OMap []]
    = Ok (empty_state None, [OMap []]).
Proof.
  destruct (absent_collections_empty "sub1" [OMap []] 0 [] (empty_state None) eq_refl)
    as (Hp & Hg & Hr & _).
  split; [reflexivity|]. split; [|split].
  - apply Hp. left. reflexivity.
  - apply Hg. left. reflexivity.
  - apply Hr. left. reflexivity.
Defined.

Lemma merged_rules_first_wins_witness :
  plain_configs <> [] /\
  match merge_clash_configs plain_configs plain_custom with
  | Ok (v, h) =>
      exists sub out,
        from_sources plain_configs sub /\
        doc_rules h v = Some out /\
        out = keep_first code_key (custom_pre plain_custom ++ sub) /\
        NoDup (flat_map (fun r => opt_list (spec_rule_key r)) out) /\
        (forall r k, spec_rule_key r = Some k -> code_key r = k)
  | Err _ => False
  end.
Proof.
  split; [discriminate|].
  destruct (merge_clash_configs plain_configs plain_custom) as [[v h]|e] eqn:E.
  - apply (merged_rules_first_wins plain_configs plain_custom v h); [discriminate | exact E].
  - vm_compute in E. discriminate E.
Defined.

Lemma merge_keeps_base_settings_witness :
  nth_error (fst doc_plain) 0 = Some (OMap [("port", YInt 7890); ("proxies", YRef 1);
                                           ("proxy-groups", YRef 3); ("rules", YRef 6)]) /\
  match merge_clash_configs plain_configs plain_custom with
  | Ok (v, hm) =>
      exists k' kvs',
        v = YRef k' /\ nth_error hm k' = Some (OMap kvs') /\
        filter other_setting kvs' = filter other_setting [("port", YInt 7890); ("proxies", YRef 1);
                                           ("proxy-groups", YRef 3); ("rules", YRef 6)] /\
        (forall key, In key (map fst kvs') <->
                     In key (map fst [("port", YInt 7890); ("proxies", YRef 1);
                                      ("proxy-groups", YRef 3); ("rules", YRef 6)])
                     \/ In key collection_keys) /\
        (forall l, (l < length (fst doc_plain))%nat -> l <> 0 ->
                   nth_error hm l = nth_error (fst doc_plain) l)
  | Err _ => False
  end.
Proof.
  split; [reflexivity|].
  destruct (merge_clash_configs plain_configs plain_custom) as [[v hm]|e] eqn:E.
  - apply (merge_keeps_base_settings (fst doc_plain) 0
             [("port", YInt 7890); ("proxies", YRef 1); ("proxy-groups", YRef 3); ("rules", YRef 6)]
             "sub1" [(Some doc_plain, "sub2")] plain_custom v hm);
      [reflexivity | exact E].
  - vm_compute in E. discriminate E.
Defined.

(* ------------------------------------------------------------------ *)
(** ** Strings: [strip], [splitlines] and ["\n".join] *)

Lemma str_app_assoc (a b c : string) : ((a ++ b) ++ c) = (a ++ (b ++ c)).
Proof. induction a as [|x a IH]; simpl; congruence. Qed.

Lemma str_app_nil_r (a : string) : (a ++ "") = a.
Proof. induction a as [|x a IH]; simpl; congruence. Qed.

Lemma list_ascii_app (a b : string) :
  list_ascii_of_string (a ++ b) = (list_ascii_of_string a ++ list_ascii_of_string b)%list.
Proof. induction a as [|x a IH]; simpl; congruence. Qed.

Lemma list_ascii_inj (a b : string) :
  list_ascii_of_string a = list_ascii_of_string b -> a = b.
Proof.
  intros E. rewrite <- (string_of_list_ascii_of_string a),
    <- (string_of_list_ascii_of_string b), E. reflexivity.
Qed.

Lemma lstrip_list s : list_ascii_of_string (lstrip s) = lstrip_l (list_ascii_of_string s).
Proof. induction s as [|c s IH]; simpl; [reflexivity|]. destruct (is_space c); [exact IH | reflexivity]. Qed.

Lemma strip_list s :
  list_ascii_of_string (strip s) = rstrip_l (lstrip_l (list_ascii_of_string s)).
Proof.
  unfold strip, rev_string, rstrip_l.
  rewrite list_ascii_of_string_of_list_ascii, lstrip_list,
    list_ascii_of_string_of_list_ascii, lstrip_list. reflexivity.
Qed.

Lemma lstrip_l_idem l : lstrip_l (lstrip_l l) = lstrip_l l.
Proof.
  induction l as [|c l IH]; simpl; [reflexivity|].
  destruct (is_space c) eqn:E; [exact IH|]. simpl. rewrite E. reflexivity.
Qed.

Lemma lstrip_l_length l : (length (lstrip_l l) <= length l)%nat.
Proof. induction l as [|c l IH]; simpl; [lia|]. destruct (is_space c); simpl; lia. Qed.

Lemma lstrip_l_snoc l c : is_space c = false -> lstrip_l (l ++ [c]) = (lstrip_l l ++ [c])%list.
Proof.
  intros Hc. induction l as [|x l IH]; simpl; [rewrite Hc; reflexivity|].
  destruct (is_space x); [exact IH | reflexivity].
Qed.

Lemma lstrip_l_rstrip l : lstrip_l l = l -> lstrip_l (rstrip_l l) = rstrip_l l.
Proof.
  intros Hl. destruct l as [|c r]; [reflexivity|].
  destruct (is_space c) eqn:Ec.
  - exfalso. simpl in Hl. rewrite Ec in Hl.
    pose proof (lstrip_l_length r) as Hlen. rewrite Hl in Hlen. simpl in Hlen. lia.
  - unfold rstrip_l. simpl. rewrite lstrip_l_snoc by exact Ec.
    rewrite rev_app_distr. simpl. rewrite Ec. reflexivity.
Qed.

Lemma rstrip_l_idem l : rstrip_l (rstrip_l l) = rstrip_l l.
Proof. unfold rstrip_l. rewrite rev_involutive, lstrip_l_idem. reflexivity. Qed.

Lemma strip_idem s : strip (strip s) = strip s.
Proof.
  apply list_ascii_inj. rewrite !strip_list.
  rewrite (lstrip_l_rstrip _ (lstrip_l_idem _)). apply rstrip_l_idem.
Qed.

Lemma in_lstrip_l c l : In c (lstrip_l l) -> In c l.
Proof.
  induction l as [|x l IH]; simpl; [auto|].
  destruct (is_space x); simpl; auto.
Qed.

Lemma in_strip c s : In c (list_ascii_of_string (strip s)) -> In c (list_ascii_of_string s).
Proof.
  rewrite strip_list. unfold rstrip_l. intros H.
  apply in_rev in H. apply in_lstrip_l in H. apply in_rev in H. apply in_lstrip_l in H. exact H.
Qed.

Lemma no_break_empty : no_break "".
Proof. intros c H. destruct H. Qed.

Lemma no_break_app a b : no_break a -> no_break b -> no_break (a ++ b).
Proof.
  intros Ha Hb c Hc. rewrite list_ascii_app in Hc.
  apply in_app_or in Hc as [Hc|Hc]; [apply Ha | apply Hb]; exact Hc.
Qed.

Lemma splitlines_from_no_break :
  forall s cur, no_break cur -> forall x, In x (splitlines_from cur s) -> no_break x.
Proof.
  fix IH 1. intros s cur Hcur x Hx. destruct s as [|c rest]; simpl in Hx.
  - destruct (String.eqb cur ""); [destruct Hx|].
    destruct Hx as [<-|[]]. exact Hcur.
  - destruct (Ascii.eqb c "013"%char).
    + pose proof (IH rest "" no_break_empty x) as IHrest.
      destruct rest as [|c' rest'].
      * destruct Hx as [<-|Hx]; [exact Hcur|]. destruct Hx.
      * destruct (Ascii.eqb c' "010"%char);
          (destruct Hx as [<-|Hx]; [exact Hcur|]).
        -- exact (IH rest' "" no_break_empty x Hx).
        -- exact (IHrest Hx).
    + destruct (is_line_break c) eqn:Eb.
      * destruct Hx as [<-|Hx]; [exact Hcur|].
        exact (IH rest "" no_break_empty x Hx).
      * refine (IH rest _ _ x Hx). apply no_break_app; [exact Hcur|].
        intros d [<-|[]]. exact Eb.
Qed.

Lemma stripped_lines_clean text : Forall clean (stripped_lines text).
Proof.
  unfold stripped_lines. apply Forall_forall. intros r Hr.
  apply in_map_iff in Hr as (l & <- & Hl). apply filter_In in Hl as [Hl Hne].
  split; [apply strip_idem|]. split.
  - intros E. rewrite E in Hne. discriminate.
  - intros c Hc. apply in_strip in Hc.
    exact (splitlines_from_no_break _ "" no_break_empty l Hl c Hc).
Qed.

Lemma splitlines_from_app x : forall cur s,
  no_break x -> splitlines_from cur (x ++ s) = splitlines_from (cur ++ x) s.
Proof.
  induction x as [|c x IH]; intros cur s Hx; simpl.
  - rewrite str_app_nil_r. reflexivity.
  - assert (Hc : is_line_break c = false) by (apply Hx; left; reflexivity).
    assert (Hc13 : Ascii.eqb c "013"%char = false).
    { destruct (Ascii.eqb c "013"%char) eqn:E; [|reflexivity].
      apply Ascii.eqb_eq in E. subst. discriminate Hc. }
    rewrite Hc13, Hc, IH.
    + rewrite str_app_assoc. reflexivity.
    + intros d Hd. apply Hx. right. exact Hd.
Qed.

Lemma splitlines_from_newline cur s :
  splitlines_from cur (newline ++ s) = cur :: splitlines_from "" s.
Proof. reflexivity. Qed.

Lemma splitlines_join U :
  Forall (fun r => r <> "" /\ no_break r) U -> splitlines (join_lines U) = U.
Proof.
  unfold splitlines, join_lines. induction U as [|x U IH]; intros HU; [reflexivity|].
  inversion HU as [|? ? [Hx Hxb] HU']; subst.
  destruct U as [|y U'].
  - simpl. rewrite <- (str_app_nil_r x) at 1. rewrite splitlines_from_app by exact Hxb.
    simpl. destruct (String.eqb x "") eqn:E; [apply String.eqb_eq in E; contradiction | reflexivity].
  - change (String.concat newline (x :: y :: U'))
      with (x ++ (newline ++ String.concat newline (y :: U'))).
    rewrite splitlines_from_app by exact Hxb.
    rewrite splitlines_from_newline, (IH HU'). reflexivity.
Qed.

Lemma strip_filter_clean U :
  Forall clean U -> map strip (filter (fun r => negb (String.eqb (strip r) "")) U) = U.
Proof.
  induction U as [|x U IH]; intros HU; [reflexivity|].
  inversion HU as [|? ? (Hs & Hne & _) HU']; subst.
  simpl. rewrite Hs. destruct (String.eqb x "") eqn:E; [apply String.eqb_eq in E; contradiction|].
  simpl. rewrite Hs, (IH HU'). reflexivity.
Qed.

Lemma stripped_lines_join U : Forall clean U -> stripped_lines (join_lines U) = U.
Proof.
  intros HU. unfold stripped_lines. rewrite splitlines_join.
  - apply strip_filter_clean. exact HU.
  - eapply Forall_impl; [|exact HU]. intros r (_ & Hr & Hb). split; assumption.
Qed.

(* ------------------------------------------------------------------ *)
(** ** The upsert loop of [save_custom_rules] *)

Arguments mem : simpl never.

Lemma mem_cons k x l : mem k (x :: l) = String.eqb k x || mem k l.
Proof. reflexivity. Qed.

Lemma dict_lookup_store {V} k k' (v : V) d :
  dict_lookup k (dict_store k' v d) = if String.eqb k k' then Some v else dict_lookup k d.
Proof.
  induction d as [|[k0 v0] d IH]; simpl.
  - destruct (String.eqb k k'); reflexivity.
  - destruct (String.eqb k' k0) eqn:E1; simpl.
    + apply String.eqb_eq in E1. subst. destruct (String.eqb k k0); reflexivity.
    + destruct (String.eqb k k0) eqn:E2; [|exact IH].
      apply String.eqb_eq in E2. subst. rewrite String.eqb_sym, E1. reflexivity.
Qed.

Lemma last_opt_app l1 l2 :
  last_opt (l1 ++ l2) = match last_opt l2 with Some x => Some x | None => last_opt l1 end.
Proof. unfold last_opt. rewrite rev_app_distr. destruct (rev l2); reflexivity. Qed.

Lemma last_with_app k l1 l2 :
  last_with k (l1 ++ l2) = match last_with k l2 with Some x => Some x | None => last_with k l1 end.
Proof. unfold last_with. rewrite filter_app. apply last_opt_app. Qed.

Lemma last_with_snoc k l x :
  last_with k (l ++ [x]) = if String.eqb (get_key x) k then Some x else last_with k l.
Proof.
  rewrite last_with_app. unfold last_with at 1. simpl.
  destruct (String.eqb (get_key x) k); reflexivity.
Qed.

Lemma last_with_In k l r : last_with k l = Some r -> In r l /\ get_key r = k.
Proof.
  unfold last_with, last_opt. intros E.
  destruct (rev (filter (fun r => String.eqb (get_key r) k) l)) as [|x xs] eqn:Er; [discriminate|].
  injection E as <-.
  assert (Hin : In x (filter (fun r => String.eqb (get_key r) k) l)).
  { apply in_rev. rewrite Er. left. reflexivity. }
  apply filter_In in Hin as [Hin Hk]. apply String.eqb_eq in Hk. auto.
Qed.

Lemma last_with_None k l : last_with k l = None -> ~ In k (map get_key l).
Proof.
  unfold last_with, last_opt. intros E Hin. apply in_map_iff in Hin as (r & Hr & Hl).
  assert (Hf : In r (filter (fun r => String.eqb (get_key r) k) l)).
  { apply filter_In. split; [exact Hl | apply String.eqb_eq; exact Hr]. }
  apply in_rev in Hf.
  destruct (rev (filter (fun r => String.eqb (get_key r) k) l)); [destruct Hf | discriminate].
Qed.

Lemma last_with_not_In k l : ~ In k (map get_key l) -> last_with k l = None.
Proof.
  intros Hn. destruct (last_with k l) as [r|] eqn:E; [|reflexivity].
  exfalso. apply last_with_In in E as [Hr Hk]. apply Hn. rewrite <- Hk. apply in_map. exact Hr.
Qed.

Lemma first_keys_snoc l : forall seen k,
  first_keys seen (l ++ [k]) =
  (first_keys seen l ++ (if mem k seen || mem k l then [] else [k]))%list.
Proof.
  induction l as [|x l IH]; intros seen k; simpl.
  - rewrite Bool.orb_false_r. destruct (mem k seen); reflexivity.
  - destruct (mem x seen) eqn:Ex.
    + rewrite IH, mem_cons. destruct (String.eqb k x) eqn:Ekx; [|reflexivity].
      apply String.eqb_eq in Ekx. subst x. rewrite Ex. reflexivity.
    + simpl. rewrite IH, !mem_cons.
      destruct (String.eqb k x), (mem k seen), (mem k l); reflexivity.
Qed.

Lemma first_keys_nodup l : forall seen,
  NoDup (first_keys seen l) /\ (forall k, In k (first_keys seen l) -> mem k seen = false).
Proof.
  induction l as [|x l IH]; intros seen; simpl; [split; [constructor | intros _ []]|].
  destruct (mem x seen) eqn:Ex; [apply IH|].
  destruct (IH (x :: seen)) as [Hnd Hfresh]. split.
  - constructor; [|exact Hnd]. intros Hin. specialize (Hfresh x Hin).
    rewrite mem_cons, String.eqb_refl in Hfresh. discriminate.
  - intros k [<-|Hk]; [exact Ex|]. specialize (Hfresh k Hk).
    rewrite mem_cons in Hfresh. apply Bool.orb_false_iff in Hfresh. apply Hfresh.
Qed.

Lemma first_keys_incl l : forall seen k, In k (first_keys seen l) -> In k l.
Proof.
  induction l as [|x l IH]; intros seen k; simpl; [auto|].
  destruct (mem x seen); [intros H; right; eapply IH; exact H|].
  intros [<-|H]; [left; reflexivity | right; eapply IH; exact H].
Qed.

Lemma first_keys_complete l : forall seen k,
  In k l -> In k (first_keys seen l) \/ mem k seen = true.
Proof.
  induction l as [|x l IH]; intros seen k Hk; [destruct Hk|].
  simpl. destruct Hk as [->|Hk].
  - destruct (mem k seen); [right; reflexivity | left; left; reflexivity].
  - destruct (mem x seen) eqn:Ex; [apply IH; exact Hk|].
    destruct (IH (x :: seen) k Hk) as [H|H]; [left; right; exact H|].
    rewrite mem_cons in H. destruct (String.eqb k x) eqn:Ekx.
    + apply String.eqb_eq in Ekx. subst. left; left; reflexivity.
    + right. exact H.
Qed.

Lemma first_keys_seen l seen :
  (forall x, In x l -> mem x seen = true) -> first_keys seen l = [].
Proof.
  induction l as [|x l IH]; intros H; simpl; [reflexivity|].
  rewrite (H x (or_introl eq_refl)). apply IH. intros y Hy. apply H. right. exact Hy.
Qed.

Lemma first_keys_absorb l1 : forall l2 seen,
  (forall x, In x l2 -> In x l1 \/ mem x seen = true) ->
  first_keys seen (l1 ++ l2) = first_keys seen l1.
Proof.
  induction l1 as [|x l1 IH]; intros l2 seen H; simpl.
  - apply first_keys_seen. intros y Hy. destruct (H y Hy) as [[]|E]. exact E.
  - destruct (mem x seen) eqn:Ex.
    + apply IH. intros y Hy. destruct (H y Hy) as [[<-|Hin]|E]; auto.
    + f_equal. apply IH. intros y Hy. rewrite mem_cons.
      destruct (H y Hy) as [[<-|Hin]|E].
      * right. rewrite String.eqb_refl. reflexivity.
      * left. exact Hin.
      * right. rewrite E. apply Bool.orb_true_r.
Qed.

Lemma first_keys_nodup_id l : forall seen,
  NoDup l -> (forall x, In x l -> mem x seen = false) -> first_keys seen l = l.
Proof.
  induction l as [|x l IH]; intros seen Hnd H; simpl; [reflexivity|].
  inversion Hnd as [|? ? Hni Hnd']; subst.
  rewrite (H x (or_introl eq_refl)). f_equal. apply IH; [exact Hnd'|].
  intros y Hy. rewrite mem_cons, (H y (or_intror Hy)).
  destruct (String.eqb y x) eqn:E; [|reflexivity].
  apply String.eqb_eq in E. subst. contradiction.
Qed.

Lemma upsert_fold l : forall m ks prev,
  ks = first_keys [] (map get_key prev) ->
  (forall k, dict_lookup k m = last_with k prev) ->
  snd (fold_left upsert_step l (m, ks)) = first_keys [] (map get_key (prev ++ l)) /\
  (forall k, dict_lookup k (fst (fold_left upsert_step l (m, ks))) = last_with k (prev ++ l)).
Proof.
  induction l as [|x l IH]; intros m ks prev Hks Hm; simpl.
  - rewrite app_nil_r. split; [exact Hks | exact Hm].
  - replace (prev ++ x :: l)%list with ((prev ++ [x]) ++ l)%list
      by (rewrite <- app_assoc; reflexivity).
    apply IH.
    + rewrite map_app. cbn [map]. rewrite first_keys_snoc. rewrite Hm.
      destruct (last_with (get_key x) prev) as [r|] eqn:E.
      * apply last_with_In in E as [Hr Hk].
        assert (Hmem : mem (get_key x) (map get_key prev) = true).
        { apply mem_In. rewrite <- Hk. apply in_map. exact Hr. }
        rewrite Hmem, app_nil_r. exact Hks.
      * apply last_with_None in E.
        destruct (mem (get_key x) (map get_key prev)) eqn:Em;
          [apply mem_In in Em; contradiction|].
        rewrite Hks. reflexivity.
    + intros k. rewrite dict_lookup_store, last_with_snoc, String.eqb_sym, Hm. reflexivity.
Qed.

Lemma lookup_all_spec m ks :
  (forall k, In k ks -> dict_lookup k m <> None) ->
  lookup_all m ks = Some (flat_map (fun k => opt_list (dict_lookup k m)) ks).
Proof.
  induction ks as [|k ks IH]; intros H; [reflexivity|]. simpl.
  destruct (dict_lookup k m) eqn:E; [|exfalso; apply (H k); [left; reflexivity | exact E]].
  rewrite IH by (intros k' Hk'; apply H; right; exact Hk'). reflexivity.
Qed.

Lemma save_custom_rules_eq text st :
  save_custom_rules text st =
  Some (write_custom_rules
          (join_lines (upsert_spec (stripped_lines (get_custom_rules st) ++ stripped_lines text)))
          st).
Proof.
  unfold save_custom_rules. rewrite <- fold_left_app.
  set (all := (stripped_lines (get_custom_rules st) ++ stripped_lines text)%list).
  destruct (upsert_fold all [] [] [] eq_refl (fun k => eq_refl)) as [Hks Hm].
  destruct (fold_left upsert_step all ([], [])) as [rule_map ordered_keys].
  simpl in Hks, Hm.
  rewrite lookup_all_spec.
  - do 3 f_equal. unfold upsert_spec. rewrite Hks. apply flat_map_ext. intros k. rewrite Hm. reflexivity.
  - intros k Hk. rewrite Hm. intros E. apply last_with_None in E. apply E.
    rewrite Hks in Hk. eapply first_keys_incl. exact Hk.
Qed.

Lemma upsert_spec_clean l : Forall clean l -> Forall clean (upsert_spec l).
Proof.
  intros Hl. apply Forall_forall. intros r Hr. unfold upsert_spec in Hr.
  apply in_flat_map in Hr as (k & _ & Hk).
  destruct (last_with k l) eqn:E; [|destruct Hk].
  destruct Hk as [<-|[]]. apply last_with_In in E as [Hin _].
  rewrite Forall_forall in Hl. apply Hl. exact Hin.
Qed.

Lemma save_inputs_clean text st :
  Forall clean (stripped_lines (get_custom_rules st) ++ stripped_lines text).
Proof. apply Forall_app. split; apply stripped_lines_clean. Qed.

Lemma stored_rules text st st' :
  save_custom_rules text st = Some st' ->
  stripped_lines (get_custom_rules st') =
  upsert_spec (stripped_lines (get_custom_rules st) ++ stripped_lines text).
Proof.
  rewrite save_custom_rules_eq. intros E. injection E as <-.
  apply stripped_lines_join. apply upsert_spec_clean. apply save_inputs_clean.
Qed.

Lemma map_get_key_upsert l : map get_key (upsert_spec l) = first_keys [] (map get_key l).
Proof.
  unfold upsert_spec.
  assert (H : forall ks, incl ks (map get_key l) ->
            map get_key (flat_map (fun k => opt_list (last_with k l)) ks) = ks).
  { induction ks as [|k ks IH]; intros Hinc; [reflexivity|]. simpl. rewrite map_app.
    destruct (last_with k l) eqn:E.
    - apply last_with_In in E as [_ Hk]. simpl. rewrite Hk, IH; [reflexivity|].
      intros x Hx; apply Hinc; right; exact Hx.
    - exfalso. apply (last_with_None _ _ E). apply Hinc. left. reflexivity. }
  apply H. intros k Hk. eapply first_keys_incl. exact Hk.
Qed.

Lemma upsert_keys_nodup l : NoDup (map get_key (upsert_spec l)).
Proof. rewrite map_get_key_upsert. apply first_keys_nodup. Qed.

Lemma filter_key_upsert l k :
  filter (fun r => String.eqb (get_key r) k) (upsert_spec l) = opt_list (last_with k l).
Proof.
  unfold upsert_spec.
  assert (H : forall ks, NoDup ks -> incl ks (map get_key l) ->
     filter (fun r => String.eqb (get_key r) k) (flat_map (fun k' => opt_list (last_with k' l)) ks)
     = if mem k ks then opt_list (last_with k l) else []).
  { induction ks as [|k' ks IH]; intros Hnd Hinc; [reflexivity|].
    inversion Hnd as [|? ? Hni Hnd']; subst.
    simpl flat_map. rewrite filter_app, IH by (auto || (intros x Hx; apply Hinc; right; exact Hx)).
    rewrite mem_cons.
    destruct (last_with k' l) as [r|] eqn:E.
    - pose proof E as E'. apply last_with_In in E' as [_ Hk']. simpl. rewrite Hk'.
      destruct (String.eqb k' k) eqn:Ekk.
      + apply String.eqb_eq in Ekk. subst k. rewrite String.eqb_refl, E.
        destruct (mem k' ks) eqn:Em; [apply mem_In in Em; contradiction | reflexivity].
      + rewrite String.eqb_sym, Ekk. reflexivity.
    - exfalso. apply (last_with_None _ _ E). apply Hinc. left. reflexivity. }
  rewrite H.
  - destruct (mem k (first_keys [] (map get_key l))) eqn:Em; [reflexivity|].
    destruct (last_with k l) as [r|] eqn:E; [|reflexivity]. exfalso.
    apply last_with_In in E as [Hr Hk].
    destruct (first_keys_complete (map get_key l) [] k) as [Hin|Hin].
    + rewrite <- Hk. apply in_map. exact Hr.
    + apply mem_In in Hin. congruence.
    + discriminate.
  - apply first_keys_nodup.
  - intros x Hx. eapply first_keys_incl. exact Hx.
Qed.

Lemma last_with_upsert k l : last_with k (upsert_spec l) = last_with k l.
Proof.
  unfold last_with at 1. rewrite filter_key_upsert.
  destruct (last_with k l); reflexivity.
Qed.

Lemma upsert_spec_absorb E N :
  upsert_spec (upsert_spec (E ++ N) ++ N) = upsert_spec (E ++ N).
Proof.
  set (A := (E ++ N)%list).
  assert (Hlw : forall k, last_with k (upsert_spec A ++ N) = last_with k A).
  { intros k. rewrite last_with_app, last_with_upsert. unfold A. rewrite last_with_app.
    destruct (last_with k N); reflexivity. }
  assert (Hkeys : first_keys [] (map get_key (upsert_spec A ++ N)) = first_keys [] (map get_key A)).
  { rewrite map_app, map_get_key_upsert, first_keys_absorb.
    - apply first_keys_nodup_id; [apply first_keys_nodup | intros x _; reflexivity].
    - intros x Hx. left.
      destruct (first_keys_complete (map get_key A) [] x) as [H|H]; [|exact H|discriminate].
      unfold A. rewrite map_app. apply in_or_app. right. exact Hx. }
  unfold upsert_spec at 1. rewrite Hkeys. unfold upsert_spec.
  apply flat_map_ext. intros k. fold (upsert_spec A). rewrite Hlw. reflexivity.
Qed.

(* ------------------------------------------------------------------ *)
(** ** Properties of [StorageService.save_custom_rules] *)

(** [save_custom_rules] never reaches a [KeyError]: every key of
    [ordered_keys] is in [rule_map], so [POST /rules/update] always
    succeeds.  Reading the file back gives, in the
    order in which keys first appear among the existing and then the new
    rules, the last rule of each key; the other two files are untouched. *)
Theorem save_custom_rules_read_back (text : string) (st : storage) :
  exists st',
    save_custom_rules text st = Some st' /\
    update_custom_rules text st = (Done "Custom rules updated successfully", st') /\
    stripped_lines (get_custom_rules st') =
      upsert_spec (stripped_lines (get_custom_rules st) ++ stripped_lines text) /\
    subscriptions st' = subscriptions st /\ merged_file st' = merged_file st.
Proof.
  eexists. split; [apply save_custom_rules_eq|].
  split; [unfold update_custom_rules; rewrite save_custom_rules_eq; reflexivity|].
  split; [|split; reflexivity].
  apply stripped_lines_join. apply upsert_spec_clean. apply save_inputs_clean.
Qed.

(** After [save_custom_rules], no two rules of the custom rules file share
    a key of [_get_rule_key]. *)
Theorem save_custom_rules_unique_keys (text : string) (st st' : storage) :
  save_custom_rules text st = Some st' ->
  NoDup (map get_key (stripped_lines (get_custom_rules st'))).
Proof. intros H. rewrite (stored_rules _ _ _ H). apply upsert_keys_nodup. Qed.

(** After [save_custom_rules], the rules of the file with key [k] are
    exactly one rule if [k] occurs at all: the last new rule with key [k],
    or, if no new rule has it, the last existing one. *)
Theorem save_custom_rules_precedence (text : string) (st st' : storage) (k : string) :
  save_custom_rules text st = Some st' ->
  filter (fun r => String.eqb (get_key r) k) (stripped_lines (get_custom_rules st')) =
  opt_list (match last_with k (stripped_lines text) with
            | Some r => Some r
            | None => last_with k (stripped_lines (get_custom_rules st))
            end).
Proof.
  intros H. rewrite (stored_rules _ _ _ H), filter_key_upsert, last_with_app. reflexivity.
Qed.

(** Saving the same custom rules a second time changes nothing. *)
Theorem save_custom_rules_idempotent (text : string) (st : storage) :
  match save_custom_rules text st with
  | Some st1 => save_custom_rules text st1
  | None => None
  end = save_custom_rules text st.
Proof.
  rewrite (save_custom_rules_eq text st), save_custom_rules_eq.
  unfold get_custom_rules at 1. cbn [custom_rules_file write_custom_rules].
  rewrite stripped_lines_join by (apply upsert_spec_clean; apply save_inputs_clean).
  rewrite upsert_spec_absorb. reflexivity.
Qed.

Lemma save_custom_rules_unique_keys_witness :
  save_custom_rules "DOMAIN,b.com,X" (storage_with_rules [] sample_text) =
    Some (storage_with_rules []
            (join_lines ["domain, a.com ,REJECT"; "MATCH,Proxy"; "DOMAIN,b.com,X"])) /\
  NoDup (map get_key (stripped_lines (get_custom_rules (storage_with_rules []
            (join_lines ["domain, a.com ,REJECT"; "MATCH,Proxy"; "DOMAIN,b.com,X"]))))).
Proof.
  split; [vm_compute; reflexivity|].
  apply (save_custom_rules_unique_keys "DOMAIN,b.com,X" (storage_with_rules [] sample_text)).
  vm_compute. reflexivity.
Defined.

Lemma save_custom_rules_precedence_witness :
  save_custom_rules "DOMAIN,a.com,X" (storage_with_rules [] sample_text) =
    Some (storage_with_rules [] (join_lines ["DOMAIN,a.com,X"; "MATCH,Proxy"])) /\
  filter (fun r => String.eqb (get_key r) "DOMAIN,a.com")
    (stripped_lines (get_custom_rules
       (storage_with_rules [] (join_lines ["DOMAIN,a.com,X"; "MATCH,Proxy"])))) =
  opt_list (match last_with "DOMAIN,a.com" (stripped_lines "DOMAIN,a.com,X") with
            | Some r => Some r
            | None => last_with "DOMAIN,a.com"
                        (stripped_lines (get_custom_rules (storage_with_rules [] sample_text)))
            end).
Proof.
  split; [vm_compute; reflexivity|].
  apply (save_custom_rules_precedence "DOMAIN,a.com,X" (storage_with_rules [] sample_text)).
  vm_compute. reflexivity.
Defined.

(* ------------------------------------------------------------------ *)
(** ** The routes of [src/src/routers/subscription.py] *)

Lemma get_key_code_key r : get_key r = code_key r.
Proof. reflexivity. Qed.

Lemma merge_rules_doc configs custom_rules v h :
  configs <> [] ->
  merge_clash_configs configs custom_rules = Ok (v, h) ->
  exists sub, doc_rules h v = Some (keep_first code_key (custom_pre custom_rules ++ sub)).
Proof.
  intros Hne H. destruct configs as [|[base lbl] rest]; [contradiction|].
  unfold merge_clash_configs, merge_body in H. crunch H.
  destruct (merge_loop_rules _ _ _ _ _ Hm0) as (sub & Esub & _).
  simpl in Esub.
  apply alloc_inv in Hm5 as [-> ->].
  apply py_setitem_inv in Hm6 as (l & kvs & -> & Hl & ->).
  exists sub.
  assert (Hlen : l <> length h5).
  { intros ->. rewrite nth_error_app_new in Hl. discriminate. }
  assert (Hlt : (l < length (h5 ++ [OSeq (map YStr (dedup_rules [] (all_rules a0)))]))%nat).
  { apply nth_error_Some. congruence. }
  unfold doc_rules, doc_field, doc_seq, deref.
  rewrite nth_error_list_set_same by exact Hlt.
  rewrite assoc_dict_set_same.
  rewrite nth_error_list_set_other by exact Hlen.
  rewrite nth_error_app_new, all_some_map_YStr.
  rewrite Esub. f_equal. apply dedup_rules_keep_first. reflexivity.
Qed.

Lemma custom_pre_stripped text :
  custom_pre (Some (stripped_lines text)) = stripped_lines text.
Proof. apply strip_filter_clean. apply stripped_lines_clean. Qed.

Lemma keep_first_prefix C : forall before s,
  NoDup (map code_key C) ->
  (forall x y, In x C -> In y before -> code_key y <> code_key x) ->
  keep_first_from code_key before (C ++ s) = (C ++ keep_first_from code_key (before ++ C) s)%list.
Proof.
  induction C as [|x C IH]; intros before s Hnd Hfresh; simpl.
  - rewrite app_nil_r. reflexivity.
  - inversion Hnd as [|? ? Hni Hnd']; subst.
    destruct (existsb (fun y => String.eqb (code_key y) (code_key x)) before) eqn:Eb.
    + exfalso. apply existsb_exists in Eb as (y & Hy & E). apply String.eqb_eq in E.
      exact (Hfresh x y (or_introl eq_refl) Hy E).
    + f_equal. replace (before ++ x :: C)%list with ((before ++ [x]) ++ C)%list
        by (rewrite <- app_assoc; reflexivity).
      apply IH; [exact Hnd'|]. intros a b Ha Hb E.
      apply in_app_or in Hb as [Hb|[<-|[]]].
      * exact (Hfresh a b (or_intror Ha) Hb E).
      * apply Hni. rewrite E. apply in_map. exact Ha.
Qed.

Lemma refresh_done fetch st msg st' :
  refresh_subscriptions fetch st = (Done msg, st') ->
  exists valid m,
    valid <> [] /\
    merge_clash_configs valid (Some (stripped_lines (get_custom_rules st))) = Ok m /\
    st' = save_merged_config m st.
Proof.
  unfold refresh_subscriptions.
  destruct (get_all_subscriptions st) as [|s subs]; [discriminate|].
  unfold refresh_try.
  destruct (collect_valid _ 0 _) as [|c cs]; [discriminate|].
  destruct (merge_clash_configs (c :: cs) _) as [m|e] eqn:Em; [|discriminate].
  intros H. injection H as <- <-. exists (c :: cs), m. split; [discriminate|]. auto.
Qed.

Lemma refresh_try_raised fetch subs st e st' :
  refresh_try fetch subs st = (Raised e, st') -> st' = st.
Proof.
  unfold refresh_try. destruct (collect_valid _ 0 _) as [|c cs].
  - intros H. injection H as _ <-. reflexivity.
  - destruct (merge_clash_configs (c :: cs) _); intros H; [discriminate|].
    injection H as _ <-. reflexivity.
Qed.

Lemma collect_valid_ext f g results : forall i,
  (forall j, (i <= j < i + length results)%nat -> f j = g j) ->
  collect_valid f i results = collect_valid g i results.
Proof.
  induction results as [|r rs IH]; intros i H; [reflexivity|]. simpl.
  assert (Hrest : collect_valid f (S i) rs = collect_valid g (S i) rs).
  { apply IH. intros j Hj. apply H. simpl. lia. }
  destruct r; rewrite Hrest; [|reflexivity].
  rewrite (H i) by (simpl; lia). reflexivity.
Qed.


Lemma nth_sub_names subs : forall i j,
  Forall (fun s => sub_name s = None \/ sub_name s = Some "") subs ->
  (j < length subs)%nat -> nth j (sub_names i subs) "" = "sub" ++ str_nat (i + j).
Proof.
  induction subs as [|s subs IH]; intros i j Hn Hj; [simpl in Hj; lia|].
  inversion Hn as [|? ? Hs Hrest]; subst. destruct j as [|j]; simpl.
  - unfold sub_label. rewrite Nat.add_0_r. destruct Hs as [-> | ->]; reflexivity.
  - rewrite IH by (exact Hrest || (simpl in Hj; lia)). simpl. do 4 f_equal. lia.
Qed.

(** After custom rules are saved, a successful refresh writes a merged
    configuration, which [GET /subscription/result] then returns, whose
    rules start with all the saved custom rules in their order; the rules
    after them come from the subscriptions and share no key with a custom
    rule. *)
Theorem saved_rules_lead_merged_rules (text : string) (st0 st1 st2 : storage)
    (fetch : string -> fetch_result) (msg : string) :
  save_custom_rules text st0 = Some st1 ->
  refresh_subscriptions fetch st1 = (Done msg, st2) ->
  exists v h rest,
    get_merged_result st2 = Done (v, h) /\
    doc_rules h v = Some (stripped_lines (get_custom_rules st1) ++ rest)%list /\
    (forall r, In r rest -> ~ In (get_key r) (map get_key (stripped_lines (get_custom_rules st1)))).
Proof.
  intros Hsave Hr.
  apply refresh_done in Hr as (valid & [v h] & Hne & Hm & ->).
  destruct (merge_rules_doc _ _ _ _ Hne Hm) as (sub & Hd).
  rewrite custom_pre_stripped in Hd.
  set (C := stripped_lines (get_custom_rules st1)) in *.
  assert (HC : NoDup (map code_key C)).
  { unfold C. rewrite (stored_rules _ _ _ Hsave). apply upsert_keys_nodup. }
  exists v, h, (keep_first_from code_key C sub).
  split; [reflexivity|]. split.
  - rewrite Hd. unfold keep_first. rewrite keep_first_prefix; [reflexivity|exact HC|].
    intros x y _ [].
  - intros r Hr Hin. apply in_map_iff in Hin as (y & Hy & HyC).
    exact (keep_first_fresh sub C r Hr y HyC Hy).
Qed.

(** A failed [POST /subscription/refresh] leaves the storage as it was.
    It fails with status 400 when there is no subscription and with 500
    otherwise, even when no subscription could be fetched: the 400 raised
    inside the [try] block is turned into a 500 by [except Exception]. *)
Theorem refresh_failure_keeps_storage (fetch : string -> fetch_result) (st st' : storage)
    (e : pyexc) :
  refresh_subscriptions fetch st = (Raised e, st') ->
  st' = st /\
  e = HTTPException (match get_all_subscriptions st with [] => 400 | _ => 500 end).
Proof.
  unfold refresh_subscriptions.
  destruct (get_all_subscriptions st) as [|s subs]; [intros H; injection H as <- <-; auto|].
  destruct (refresh_try fetch (s :: subs) st) as [[a|e0] st0] eqn:Et; [discriminate|].
  intros H. injection H as <- <-. split; [|reflexivity].
  exact (refresh_try_raised _ _ _ _ _ Et).
Qed.


(** When no subscription has a name, [POST /subscription/refresh] merges
    exactly what [GET /subscription/merge] merges for the subscriptions'
    URLs (the fallback names [sub1], [sub2], ... agree), and stores it. *)
Theorem refresh_matches_direct_merge (fetch : string -> fetch_result) (st : storage) :
  get_all_subscriptions st <> [] ->
  Forall (fun s => sub_name s = None \/ sub_name s = Some "") (get_all_subscriptions st) ->
  refresh_subscriptions fetch st =
  match merge_subscriptions_direct fetch (map sub_url (get_all_subscriptions st)) st with
  | Done d => (Done "Refresh successful", save_merged_config d st)
  | Raised _ => (Raised (HTTPException 500), st)
  end.
Proof.
  intros Hne Hn. unfold refresh_subscriptions, merge_subscriptions_direct, merge_direct_try.
  destruct (get_all_subscriptions st) as [|s subs] eqn:Es; [contradiction|].
  unfold refresh_try.
  rewrite (collect_valid_ext (fun i => nth i (sub_names 1 (s :: subs)) "")
             (fun i => "sub" ++ str_nat (i + 1))).
  - destruct (collect_valid _ 0 _) as [|c cs]; [reflexivity|].
    destruct (merge_clash_configs (c :: cs) _); reflexivity.
  - intros j Hj. rewrite !length_map in Hj.
    rewrite nth_sub_names by (exact Hn || lia). do 2 f_equal. lia.
Qed.

Lemma saved_rules_lead_merged_rules_witness :
  save_custom_rules "DOMAIN,b.com,X" (storage_with_rules sample_subs sample_text) =
    Some (storage_with_rules sample_subs
            (join_lines ["domain, a.com ,REJECT"; "MATCH,Proxy"; "DOMAIN,b.com,X"])) /\
  refresh_subscriptions sample_fetch (storage_with_rules sample_subs
            (join_lines ["domain, a.com ,REJECT"; "MATCH,Proxy"; "DOMAIN,b.com,X"])) =
    (Done "Refresh successful",
     snd (refresh_subscriptions sample_fetch (storage_with_rules sample_subs
            (join_lines ["domain, a.com ,REJECT"; "MATCH,Proxy"; "DOMAIN,b.com,X"])))) /\
  exists v h rest,
    get_merged_result (snd (refresh_subscriptions sample_fetch (storage_with_rules sample_subs
            (join_lines ["domain, a.com ,REJECT"; "MATCH,Proxy"; "DOMAIN,b.com,X"])))) = Done (v, h) /\
    doc_rules h v = Some (stripped_lines (get_custom_rules (storage_with_rules sample_subs
            (join_lines ["domain, a.com ,REJECT"; "MATCH,Proxy"; "DOMAIN,b.com,X"]))) ++ rest)%list /\
    (forall r, In r rest -> ~ In (get_key r) (map get_key (stripped_lines (get_custom_rules
            (storage_with_rules sample_subs
               (join_lines ["domain, a.com ,REJECT"; "MATCH,Proxy"; "DOMAIN,b.com,X"])))))).
Proof.
  split; [vm_compute; reflexivity|]. split; [vm_compute; reflexivity|].
  apply (saved_rules_lead_merged_rules "DOMAIN,b.com,X" (storage_with_rules sample_subs sample_text)
           (storage_with_rules sample_subs
              (join_lines ["domain, a.com ,REJECT"; "MATCH,Proxy"; "DOMAIN,b.com,X"]))
           (snd (refresh_subscriptions sample_fetch (storage_with_rules sample_subs
              (join_lines ["domain, a.com ,REJECT"; "MATCH,Proxy"; "DOMAIN,b.com,X"]))))
           sample_fetch "Refresh successful").
  - vm_compute. reflexivity.
  - vm_compute. reflexivity.
Defined.

Lemma refresh_failure_keeps_storage_witness :
  refresh_subscriptions (fun _ => FetchFailed) (storage_with_rules sample_subs "") =
    (Raised (HTTPException 500), storage_with_rules sample_subs "") /\
  storage_with_rules sample_subs "" = storage_with_rules sample_subs "" /\
  HTTPException 500 =
    HTTPException (match get_all_subscriptions (storage_with_rules sample_subs "") with
                   | [] => 400 | _ => 500 end).
Proof.
  split; [vm_compute; reflexivity|].
  apply (refresh_failure_keeps_storage (fun _ => FetchFailed)). vm_compute. reflexivity.
Defined.


Lemma refresh_matches_direct_merge_witness :
  refresh_subscriptions sample_fetch (storage_with_rules sample_subs "") =
  match merge_subscriptions_direct sample_fetch
          (map sub_url (get_all_subscriptions (storage_with_rules sample_subs ""))) 
          (storage_with_rules sample_subs "") with
  | Done d => (Done "Refresh successful", save_merged_config d (storage_with_rules sample_subs ""))
  | Raised _ => (Raised (HTTPException 500), storage_with_rules sample_subs "")
  end.
Proof.
  apply refresh_matches_direct_merge.
  - discriminate.
  - repeat constructor; left; reflexivity.
Defined.

(* ------------------------------------------------------------------ *)
(** ** The subscription list of [StorageService] *)

Lemma filter_other_ids target subs :
  ~ In target (map sub_id subs) ->
  filter (fun s => negb (String.eqb (sub_id s) target)) subs = subs.
Proof.
  induction subs as [|s subs IH]; intros H; [reflexivity|]. simpl.
  destruct (String.eqb (sub_id s) target) eqn:E.
  - exfalso. apply String.eqb_eq in E. apply H. left. exact E.
  - simpl. f_equal. apply IH. intros Hin. apply H. right. exact Hin.
Qed.

(** Adding a subscription whose id is not in the list and then removing
    that id gives back the storage as it was. *)
Theorem add_then_remove_subscription (sub : subscription) (st : storage) :
  ~ In (sub_id sub) (map sub_id (get_all_subscriptions st)) ->
  remove_subscription (sub_id sub) (add_subscription sub st) = st.
Proof.
  intros H. unfold remove_subscription, add_subscription, save_subscriptions.
  cbn [get_all_subscriptions subscriptions merged_file custom_rules_file].
  rewrite filter_app. simpl. rewrite String.eqb_refl. simpl. rewrite app_nil_r.
  rewrite filter_other_ids by exact H. destruct st; reflexivity.
Qed.

Lemma add_then_remove_subscription_witness :
  ~ In "3" (map sub_id (get_all_subscriptions (storage_with_rules sample_subs ""))) /\
  remove_subscription "3"
    (add_subscription (Subscription "http://new" None "3") (storage_with_rules sample_subs "")) =
  storage_with_rules sample_subs "".
Proof.
  assert (H : ~ In "3" (map sub_id (get_all_subscriptions (storage_with_rules sample_subs "")))).
  { simpl. intros [E|[E|[]]]; discriminate. }
  split; [exact H|].
  exact (add_then_remove_subscription (Subscription "http://new" None "3")
           (storage_with_rules sample_subs "") H).
Defined.

(* ------------------------------------------------------------------ *)
(** ** The proxy-name dedup loop *)

Lemma dedup_loop_shape existing p fuel : forall counter cur,
  dedup_loop existing p counter fuel cur = cur \/
  exists k, (counter <= k)%nat /\ dedup_loop existing p counter fuel cur = candidate p k /\
    mem cur existing = true /\
    (forall j, (counter <= j < k)%nat -> mem (candidate p j) existing = true).
Proof.
  induction fuel as [|f IH]; intros counter cur; simpl.
  - left. destruct (mem cur existing); reflexivity.
  - destruct (mem cur existing) eqn:Em; [|left; reflexivity]. right.
    destruct (IH (S counter) (candidate p counter)) as [E|(k & Hk & E & Hm & Hj)].
    + exists counter. split; [lia|]. split; [exact E|]. split; [reflexivity|]. intros j Hj. lia.
    + exists k. split; [lia|]. split; [exact E|]. split; [reflexivity|].
      intros j Hj'. destruct (Nat.eq_dec j counter) as [->|Hne]; [exact Hm|].
      apply Hj. lia.
Qed.

(** The dedup loop of the proxy names: a name not yet taken is kept;
    a taken name [n] becomes the first of [n_1], [n_2], ... that is not
    taken; and the result is never a taken name. *)
Theorem dedup_name_first_free (existing : list string) (p : string) :
  mem (dedup_name existing p) existing = false /\
  (mem p existing = false -> dedup_name existing p = p) /\
  (mem p existing = true ->
   exists k, (1 <= k)%nat /\ dedup_name existing p = candidate p k /\
     forall j, (1 <= j < k)%nat -> mem (candidate p j) existing = true).
Proof.
  pose proof (dedup_name_fresh existing p) as Hfresh.
  split; [exact Hfresh|]. split.
  - intros Hp. unfold dedup_name. simpl. rewrite Hp. reflexivity.
  - intros Hp. unfold dedup_name in *.
    destruct (dedup_loop_shape existing p (S (length existing)) 1 p) as [E|(k & Hk & E & _ & Hj)].
    + rewrite E in Hfresh. congruence.
    + exists k. auto.
Qed.

(* ------------------------------------------------------------------ *)
(** ** Sources that load as a falsy value *)

Lemma py_truthy_shift h dh v :
  py_truthy (h ++ map (shift_obj (length h)) dh)%list (shift_val (length h) v) = py_truthy dh v.
Proof.
  destruct v as [| | | |l]; try reflexivity. simpl.
  rewrite nth_error_app2 by lia. replace (length h + l - length h)%nat with l by lia.
  rewrite nth_error_map.
  destruct (nth_error dh l) as [[[|x xs]|[|kv kvs]]|]; reflexivity.
Qed.

Lemma merge_sections_empty p st hh :
  merge_proxies p (YRef (length hh)) st (hh ++ [OMap []])%list = Ok (st, (hh ++ [OMap []])%list) /\
  merge_groups p (YRef (length hh)) st (hh ++ [OMap []])%list = Ok (st, (hh ++ [OMap []])%list) /\
  merge_rules p (YRef (length hh)) st (hh ++ [OMap []])%list = Ok (st, (hh ++ [OMap []])%list).
Proof.
  pose proof (py_get_map (length hh) (hh ++ [OMap []])%list [] "proxies" (nth_error_app_new hh _)) as E1.
  pose proof (py_get_map (length hh) (hh ++ [OMap []])%list [] "proxy-groups" (nth_error_app_new hh _)) as E2.
  pose proof (py_get_map (length hh) (hh ++ [OMap []])%list [] "rules" (nth_error_app_new hh _)) as E3.
  unfold merge_proxies, merge_groups, merge_rules, bind.
  rewrite E1, E2, E3. repeat split; reflexivity.
Qed.

Lemma merge_config_empty_doc st p hh :
  exists h', (l <- alloc (OMap []) ;; ret (YRef l)) hh = Ok (YRef (length hh), h') /\
             merge_config st (None, p) hh = Ok (st, h').
Proof.
  exists (hh ++ [OMap []])%list. split; [reflexivity|].
  destruct (merge_sections_empty p st hh) as (E1 & E2 & E3).
  cbv [merge_config bind safe_load_yaml alloc ret fst snd]. rewrite E1, E2, E3. reflexivity.
Qed.

(** A source whose text [yaml.safe_load] reads as a falsy value ([None],
    [false], [0], an empty string, list or mapping), or which fails to
    parse, is replaced by [{}]: its round of the loop adds no proxy, group
    or rule and raises nothing. *)
Theorem falsy_source_contributes_nothing (st : mstate) (d : heap * yval) (p : string)
    (h : heap) :
  py_truthy (fst d) (snd d) = false ->
  (exists h', merge_config st (Some d, p) h = Ok (st, h')) /\
  (exists h', merge_config st (None, p) h = Ok (st, h')).
Proof.
  intros Hf. split.
  - destruct d as [dh v]. cbv [fst snd] in Hf.
    destruct (merge_sections_empty p st (h ++ map (shift_obj (length h)) dh)%list)
      as (E1 & E2 & E3).
    exists ((h ++ map (shift_obj (length h)) dh) ++ [OMap []])%list.
    cbv [merge_config bind safe_load_yaml load_doc get_heap alloc ret fst snd].
    rewrite py_truthy_shift, Hf. rewrite E1, E2, E3. reflexivity.
  - destruct (merge_config_empty_doc st p h) as (h' & _ & E). exists h'. exact E.
Qed.

Lemma falsy_source_contributes_nothing_witness :
  py_truthy [OSeq []] (YRef 0) = false /\
  (exists h', merge_config (empty_state None) (Some ([OSeq []], YRef 0), "s") [] =
              Ok (empty_state None, h')) /\
  (exists h', merge_config (empty_state None) (None, "s") [] = Ok (empty_state None, h')).
Proof.
  split; [reflexivity|].
  apply (falsy_source_contributes_nothing (empty_state None) ([OSeq []], YRef 0) "s" []).
  reflexivity.
Defined.

(* ------------------------------------------------------------------ *)
(** ** Rule rewriting and the dedup key *)

Lemma split_comma_free s : Forall comma_free (split_comma s).
Proof.
  induction s as [|c r IH]; simpl.
  - constructor; [intros x []|constructor].
  - destruct (Ascii.eqb_spec c ","%char) as [->|Hc].
    + constructor; [intros x []|exact IH].
    + destruct (split_comma r) as [|x xs]; inversion IH as [|? ? Hx Hxs]; subst.
      * constructor; [|constructor]. intros y [<-|[]]. exact Hc.
      * constructor; [|exact Hxs]. intros y [<-|Hy]; [exact Hc | exact (Hx y Hy)].
Qed.

Lemma split_comma_app a b :
  comma_free a -> split_comma (a ++ String ","%char b) = a :: split_comma b.
Proof.
  induction a as [|c a IH]; intros Ha; [reflexivity|]. simpl.
  destruct (Ascii.eqb_spec c ","%char) as [E|Hc].
  - exfalso. apply (Ha c); [left; reflexivity | exact E].
  - rewrite IH; [reflexivity|]. intros y Hy. apply Ha. right. exact Hy.
Qed.

Lemma split_comma_single s : comma_free s -> split_comma s = [s].
Proof.
  induction s as [|c s IH]; intros Hs; [reflexivity|]. simpl.
  destruct (Ascii.eqb_spec c ","%char) as [E|Hc].
  - exfalso. apply (Hs c); [left; reflexivity | exact E].
  - rewrite IH; [reflexivity|]. intros y Hy. apply Hs. right. exact Hy.
Qed.

Lemma join_comma_cons2 a b t :
  join_comma (a :: b :: t) = a ++ String ","%char (join_comma (b :: t)).
Proof. reflexivity. Qed.

Lemma split_join_head p t :
  comma_free p -> exists tl, split_comma (join_comma (p :: t)) = p :: tl.
Proof.
  intros Hp. destruct t as [|q t].
  - exists []. apply split_comma_single. exact Hp.
  - rewrite join_comma_cons2, split_comma_app by exact Hp. eauto.
Qed.

Lemma code_key_join p0 p1 t :
  comma_free p0 -> comma_free p1 ->
  code_key (join_comma (p0 :: p1 :: t)) = rule_key "" [p0; p1].
Proof.
  intros H0 H1. unfold code_key.
  rewrite join_comma_cons2, split_comma_app by exact H0.
  destruct (split_join_head p1 t H1) as [tl ->]. reflexivity.
Qed.

(** Rewriting a subscription rule (prefixing its target) keeps its dedup
    key, unless the rule has exactly three fields and ends in
    [no-resolve]: then the prefixed field is the second one, the value of
    the key. *)
Theorem rewrite_rule_keeps_key (prefix r : string) :
  ~ (length (split_comma r) = 3%nat /\ strip (nth 2 (split_comma r) "") = "no-resolve") ->
  code_key (rewrite_rule prefix r) = code_key r.
Proof.
  intros Hnr. pose proof (split_comma_free r) as Hfree. unfold rewrite_rule.
  destruct (split_comma r) as [|p0 [|p1 [|p2 rest]]] eqn:E; try reflexivity.
  inversion Hfree as [|? ? Hp0 Hf1]; subst. inversion Hf1 as [|? ? Hp1 _]; subst.
  assert (Hr : code_key r = rule_key "" [p0; p1]) by (unfold code_key; rewrite E; reflexivity).
  rewrite Hr. destruct rest as [|q qs]; cbn [length Nat.leb Nat.sub list_set nth].
  - destruct (String.eqb (strip p2) "no-resolve") eqn:Enr.
    + exfalso. apply Hnr. split; [reflexivity|]. apply String.eqb_eq. exact Enr.
    + apply code_key_join; assumption.
  - destruct (String.eqb _ "no-resolve"); apply code_key_join; assumption.
Qed.

Lemma rewrite_rule_keeps_key_witness :
  ~ (length (split_comma "DOMAIN,x.com,A") = 3%nat /\
     strip (nth 2 (split_comma "DOMAIN,x.com,A") "") = "no-resolve") /\
  code_key (rewrite_rule "s" "DOMAIN,x.com,A") = code_key "DOMAIN,x.com,A".
Proof.
  assert (H : ~ (length (split_comma "DOMAIN,x.com,A") = 3%nat /\
                 strip (nth 2 (split_comma "DOMAIN,x.com,A") "") = "no-resolve")).
  { vm_compute. intros [_ E]. discriminate. }
  split; [exact H|]. exact (rewrite_rule_keeps_key "s" "DOMAIN,x.com,A" H).
Defined.
